(** * Smaz: a static-dictionary codec for short strings

    A shallow embedding of the two implementations of the repository,
    [smaz.go] (module [Go]) and [smaz.php] (module [Php]), and the
    properties of the codec that hold of them.

    Bytes are [Byte.byte]; a Go [[]byte] and a PHP [string] are
    [list byte].  A Go slice that may be [nil] is an [option (list byte)].
    Cursors and lengths are [nat]. *)

From Stdlib Require Import String DecimalString.
From Stdlib.Strings Require Import Byte.
From Stdlib Require Import List Arith Lia Bool.
Import ListNotations.

Local Open Scope list_scope.
Local Open Scope nat_scope.

(** ** Bytes *)

(** The conversion [byte(n)] of Go and [chr(n)] of PHP on a non-negative
    integer: the value modulo 256. *)
Definition byte_of_int (n : nat) : byte :=
  match Byte.of_nat (n mod 256) with
  | Some b => b
  | None => x00
  end.

Definition CR : byte := x0d.
Definition LF : byte := x0a.
Definition DQUOTE : byte := x22.

(** The bytes of a string literal without escapes. *)
Definition str (s : string) : list byte := list_byte_of_string s.

Fixpoint bytes_eqb (a b : list byte) : bool :=
  match a, b with
  | [], [] => true
  | x :: a', y :: b' => Byte.eqb x y && bytes_eqb a' b'
  | _, _ => false
  end.

(** [is_prefix e s]: the entry [e] occurs at the start of [s]. *)
Fixpoint is_prefix (e s : list byte) : bool :=
  match e, s with
  | [], _ => true
  | x :: e', y :: s' => Byte.eqb x y && is_prefix e' s'
  | _ :: _, [] => false
  end.

(** ** Outcomes

    What running a piece of code gives: a value, an error of the language
    (a returned [*SmazError] in Go, a thrown exception in PHP), a run-time
    panic of Go (an index or a slice bound out of range), or a loop that
    was cut by the fuel of the model. *)
Inductive outcome (E A : Type) : Type :=
| Ok (a : A)
| Err (e : E)
| Panic
| OutOfFuel.

Arguments Ok {E A} a.
Arguments Err {E A} e.
Arguments Panic {E A}.
Arguments OutOfFuel {E A}.

Definition bind {E A B : Type} (m : outcome E A) (k : A -> outcome E B)
  : outcome E B :=
  match m with
  | Ok a => k a
  | Err e => Err e
  | Panic => Panic
  | OutOfFuel => OutOfFuel
  end.

Notation "x <- m ;; k" := (bind m (fun x => k))
  (at level 61, m at next level, right associativity).
Notation "' p <- m ;; k" := (bind m (fun x => let p := x in k))
  (at level 61, p pattern, m at next level, right associativity).

(** ** The Go implementation *)

Module Go.

(** [type SmazError struct { message string }] *)
Record SmazError : Type := mkSmazError { message : string }.

Definition Error (e : SmazError) : string := ("smaz: " ++ message e)%string.

Definition result (A : Type) : Type := outcome SmazError A.

(** [s[i]]: panics out of range. *)
Definition index {A : Type} (s : list A) (i : nat) : result A :=
  match nth_error s i with
  | Some x => Ok x
  | None => Panic
  end.

(** [s[lo:hi]]: panics unless [lo <= hi <= len(s)]. *)
Definition subslice {A : Type} (s : list A) (lo hi : nat) : result (list A) :=
  if (lo <=? hi) && (hi <=? length s)
  then Ok (firstn (hi - lo) (skipn lo s))
  else Panic.

(** [var codeStrings = []string{...}] *)
Definition codeStrings : list (list byte) :=
  [
    str " "; str "the"; str "e"; str "t"; str "a"; str "of"; str "o"; str "and"; str "i"; str "n"; str "s"; str "e "; str "r"; str " th";
    str " t"; str "in"; str "he"; str "th"; str "h"; str "he "; str "to"; [CR; LF]; str "l"; str "s "; str "d"; str " a"; str "an";
    str "er"; str "c"; str " o"; str "d "; str "on"; str " of"; str "re"; str "of "; str "t "; str ", "; str "is"; str "u"; str "at";
    str "   "; str "n "; str "or"; str "which"; str "f"; str "m"; str "as"; str "it"; str "that"; [LF]; str "was"; str "en";
    str "  "; str " w"; str "es"; str " an"; str " i"; [CR]; str "f "; str "g"; str "p"; str "nd"; str " s"; str "nd "; str "ed ";
    str "w"; str "ed"; str "http://"; str "for"; str "te"; str "ing"; str "y "; str "The"; str " c"; str "ti"; str "r "; str "his";
    str "st"; str " in"; str "ar"; str "nt"; str ","; str " to"; str "y"; str "ng"; str " h"; str "with"; str "le"; str "al"; str "to ";
    str "b"; str "ou"; str "be"; str "were"; str " b"; str "se"; str "o "; str "ent"; str "ha"; str "ng "; str "their"; [DQUOTE];
    str "hi"; str "from"; str " f"; str "in "; str "de"; str "ion"; str "me"; str "v"; str "."; str "ve"; str "all"; str "re ";
    str "ri"; str "ro"; str "is "; str "co"; str "f t"; str "are"; str "ea"; str ". "; str "her"; str " m"; str "er "; str " p";
    str "es "; str "by"; str "they"; str "di"; str "ra"; str "ic"; str "not"; str "s, "; str "d t"; str "at "; str "ce"; str "la";
    str "h "; str "ne"; str "as "; str "tio"; str "on "; str "n t"; str "io"; str "we"; str " a "; str "om"; str ", a"; str "s o";
    str "ur"; str "li"; str "ll"; str "ch"; str "had"; str "this"; str "e t"; str "g "; str "e" ++ [CR; LF]; str " wh"; str "ere";
    str " co"; str "e o"; str "a "; str "us"; str " d"; str "ss"; [LF; CR; LF]; [CR; LF; CR]; str "=" ++ [DQUOTE]; str " be"; str " e";
    str "s a"; str "ma"; str "one"; str "t t"; str "or "; str "but"; str "el"; str "so"; str "l "; str "e s"; str "s,"; str "no";
    str "ter"; str " wa"; str "iv"; str "ho"; str "e a"; str " r"; str "hat"; str "s t"; str "ns"; str "ch "; str "wh"; str "tr";
    str "ut"; str "/"; str "have"; str "ly "; str "ta"; str " ha"; str " on"; str "tha"; str "-"; str " l"; str "ati"; str "en ";
    str "pe"; str " re"; str "there"; str "ass"; str "si"; str " fo"; str "wa"; str "ec"; str "our"; str "who"; str "its"; str "z";
    str "fo"; str "rs"; str ">"; str "ot"; str "un"; str "<"; str "im"; str "th "; str "nc"; str "ate"; str "><"; str "ver"; str "ad";
    str " we"; str "ly"; str "ee"; str " n"; str "id"; str " cl"; str "ac"; str "il"; str "</"; str "rt"; str " wi"; str "div";
    str "e, "; str " it"; str "whi"; str " ma"; str "ge"; str "x"; str "e c"; str "men"; str ".com"
  ].

(** Special codes *)
Definition verbatimByte : byte := xfe.   (* 254 *)
Definition verbatimString : byte := xff. (* 255 *)

(** [type trieNode struct { branches [256]*trieNode; val byte; terminal bool }]
    The array of 256 pointers is a function from bytes, [None] for [nil]. *)
#[warnings="-register-all"]
Inductive trieNode : Type :=
  mkTrieNode (branches : byte -> option trieNode) (val : byte) (terminal : bool).

Definition branches (n : trieNode) : byte -> option trieNode :=
  let 'mkTrieNode b _ _ := n in b.
Definition val (n : trieNode) : byte :=
  let 'mkTrieNode _ v _ := n in v.
Definition terminal (n : trieNode) : bool :=
  let 'mkTrieNode _ _ t := n in t.

(** The zero value [trieNode{}]. *)
Definition zeroNode : trieNode := mkTrieNode (fun _ => None) x00 false.

Definition set_branch (b : byte -> option trieNode) (c : byte) (m : trieNode)
  : byte -> option trieNode :=
  fun c' => if Byte.eqb c' c then Some m else b c'.

(** [func (n *trieNode) put(key []byte, val byte)]: the node reached by
    [key] (created on the way when absent) gets [val] and [terminal]. *)
Fixpoint put (n : trieNode) (key : list byte) (v : byte) {struct key} : trieNode :=
  match key with
  | [] => mkTrieNode (branches n) v true
  | c :: key' =>
      let child := match branches n c with
                   | None => zeroNode
                   | Some m => m
                   end in
      mkTrieNode (set_branch (branches n) c (put child key' v)) (val n) (terminal n)
  end.

(** [s[i] = x]: panics out of range. *)
Fixpoint set_index {A : Type} (s : list A) (i : nat) (x : A) : result (list A) :=
  match s, i with
  | [], _ => Panic
  | _ :: s', 0 => Ok (x :: s')
  | y :: s', S i' => s'' <- set_index s' i' x ;; Ok (y :: s'')
  end.

(** The loop of [init]: [for i, s := range codeStrings], which fills
    [decodeMap] and [codeTrie] ([encodeMap] is not read by the codec). *)
Fixpoint init_loop (i : nat) (ss : list (list byte))
    (decodeMap : list (list byte)) (codeTrie : trieNode)
  : result (list (list byte) * trieNode) :=
  match ss with
  | [] => Ok (decodeMap, codeTrie)
  | s :: ss' =>
      decodeMap <- set_index decodeMap i s ;;
      init_loop (S i) ss' decodeMap (put codeTrie s (byte_of_int i))
  end.

(** [decodeMap = make([]string, len(codeStrings))], [codeTrie] the zero
    value, then the loop. *)
Definition init : result (list (list byte) * trieNode) :=
  init_loop 0 codeStrings (repeat [] (length codeStrings)) zeroNode.

Definition decodeMap : list (list byte) :=
  match init with
  | Ok (d, _) => d
  | _ => []
  end.

Definition codeTrie : trieNode :=
  match init with
  | Ok (_, t) => t
  | _ => zeroNode
  end.

(** [func (n *trieNode) findLongestPrefix(input []byte) (int, byte)] *)
Fixpoint findLongestPrefix_loop (n : trieNode) (input : list byte) (i : nat)
    (lastMatch : nat) (lastCode : byte) {struct input} : nat * byte :=
  match input with
  | [] => (lastMatch, lastCode)
  | c :: input' =>
      match branches n c with
      | None => (lastMatch, lastCode)
      | Some n' =>
          if terminal n'
          then findLongestPrefix_loop n' input' (S i) (i + 1) (val n')
          else findLongestPrefix_loop n' input' (S i) lastMatch lastCode
      end
  end.

Definition findLongestPrefix (n : trieNode) (input : list byte) : nat * byte :=
  findLongestPrefix_loop n input 0 0 x00.

(** [func flushVerbatim(out, verbatim []byte) []byte] *)
Fixpoint flushVerbatim_loop (fuel : nat) (out verbatim : list byte) (pos : nat)
  : result (list byte) :=
  let len := length verbatim in
  if pos <? len then
    match fuel with
    | 0 => OutOfFuel
    | S fuel' =>
        let chunkSize := if len - pos <? 255 then len - pos else 255 in
        let out := if chunkSize =? 1
                   then out ++ [verbatimByte]
                   else out ++ [verbatimString; byte_of_int chunkSize] in
        chunk <- subslice verbatim pos (pos + chunkSize) ;;
        flushVerbatim_loop fuel' (out ++ chunk) verbatim (pos + chunkSize)
    end
  else Ok out.

Definition flushVerbatim (out verbatim : list byte) : result (list byte) :=
  flushVerbatim_loop (length verbatim) out verbatim 0.

(** One turn of the loop of [Compress], entered with [i < inputLen]:
    the new cursor, output and verbatim buffer. *)
Definition Compress_step (input : list byte) (i : nat) (output verbatim : list byte)
  : result (nat * list byte * list byte) :=
  let inputLen := length input in
  let maxLen := if inputLen - i <? 7 then inputLen - i else 7 in
  window <- subslice input i (i + maxLen) ;;
  let '(matchLen, code) := findLongestPrefix codeTrie window in
  if 0 <? matchLen then
    '(output, verbatim) <-
      (if 0 <? length verbatim
       then output <- flushVerbatim output verbatim ;; Ok (output, [])
       else Ok (output, verbatim)) ;;
    Ok (i + matchLen, output ++ [code], verbatim)
  else
    c <- index input i ;;
    let verbatim := verbatim ++ [c] in
    '(output, verbatim) <-
      (if length verbatim =? 255
       then output <- flushVerbatim output verbatim ;; Ok (output, [])
       else Ok (output, verbatim)) ;;
    Ok (i + 1, output, verbatim).

(** [for i < inputLen { ... }] *)
Fixpoint Compress_loop (fuel : nat) (input : list byte) (i : nat)
    (output verbatim : list byte) : result (list byte * list byte) :=
  if i <? length input then
    match fuel with
    | 0 => OutOfFuel
    | S fuel' =>
        '(i, output, verbatim) <- Compress_step input i output verbatim ;;
        Compress_loop fuel' input i output verbatim
    end
  else Ok (output, verbatim).

(** [func Compress(input []byte) ([]byte, error)]; [None] is a [nil] slice.
    Every turn of the loop moves the cursor forward, so [len(input)] turns
    are enough fuel. *)
Definition Compress (input : option (list byte)) : result (list byte) :=
  match input with
  | None => Err (mkSmazError "input cannot be nil")
  | Some input =>
      '(output, verbatim) <- Compress_loop (length input) input 0 [] [] ;;
      if 0 <? length verbatim
      then flushVerbatim output verbatim
      else Ok output
  end.

(** The decoder reads the package variable [decodeMap]; it is a parameter
    here, and [Decompress] below runs on the table that [init] builds. *)
Section Decoder.

Variable decodeMap : list (list byte).

(** One turn of the loop of [Decompress], entered with [i < inputLen]:
    the new cursor and output. *)
Definition Decompress_step (input : list byte) (i : nat) (output : list byte)
  : result (nat * list byte) :=
  let inputLen := length input in
  code <- index input i ;;
  if Byte.eqb code verbatimByte then
    if inputLen <=? i + 1 then
      Err (mkSmazError "incomplete verbatim byte sequence")
    else
      b <- index input (i + 1) ;;
      Ok (i + 2, output ++ [b])
  else if Byte.eqb code verbatimString then
    if inputLen <=? i + 1 then
      Err (mkSmazError "incomplete verbatim string length")
    else
      l <- index input (i + 1) ;;
      let len := Byte.to_nat l in
      if inputLen <? i + 2 + len then
        Err (mkSmazError "incomplete verbatim string data")
      else
        data <- subslice input (i + 2) (i + 2 + len) ;;
        Ok (i + 2 + len, output ++ data)
  else
    if length decodeMap <=? Byte.to_nat code then
      Err (mkSmazError "invalid code")
    else
      s <- index decodeMap (Byte.to_nat code) ;;
      Ok (i + 1, output ++ s).

(** [for i < inputLen { ... }] *)
Fixpoint Decompress_loop (fuel : nat) (input : list byte) (i : nat)
    (output : list byte) : result (list byte) :=
  if i <? length input then
    match fuel with
    | 0 => OutOfFuel
    | S fuel' =>
        '(i, output) <- Decompress_step input i output ;;
        Decompress_loop fuel' input i output
    end
  else Ok output.

(** The body of [Decompress]; every turn of the loop moves the cursor
    forward, so [len(input)] turns are enough fuel. *)
Definition DecompressWith (input : option (list byte)) : result (list byte) :=
  match input with
  | None => Err (mkSmazError "input cannot be nil")
  | Some input => Decompress_loop (length input) input 0 []
  end.

End Decoder.

(** [func Decompress(input []byte) ([]byte, error)] *)
Definition Decompress (input : option (list byte)) : result (list byte) :=
  DecompressWith decodeMap input.

(** What a call that panics on an error gives: its value, a panic with
    the error, or what was left of the callee (a run-time panic, a loop
    cut by the fuel). *)
Inductive must (A : Type) : Type :=
| Returned (a : A)
| PanicErr (e : SmazError)
| PanicRuntime
| NoFuel.

Arguments Returned {A} a.
Arguments PanicErr {A} e.
Arguments PanicRuntime {A}.
Arguments NoFuel {A}.

(** [func MustCompress(input []byte) []byte] *)
Definition MustCompress (input : option (list byte)) : must (list byte) :=
  match Compress input with
  | Ok result => Returned result
  | Err err => PanicErr err
  | Panic => PanicRuntime
  | OutOfFuel => NoFuel
  end.

(** [func MustDecompress(input []byte) []byte] *)
Definition MustDecompress (input : option (list byte)) : must (list byte) :=
  match Decompress input with
  | Ok result => Returned result
  | Err err => PanicErr err
  | Panic => PanicRuntime
  | OutOfFuel => NoFuel
  end.

(** [func CompressString(s string) ([]byte, error)]; a Go string is its
    bytes, and [[]byte(s)] is a slice that is not [nil]. *)
Definition CompressString (s : list byte) : result (list byte) :=
  Compress (Some s).

(** [func DecompressString(data []byte) (string, error)] *)
Definition DecompressString (data : option (list byte)) : result (list byte) :=
  result <- Decompress data ;;
  Ok result.

End Go.


(** ** The PHP implementation *)

Module Php.

(** A thrown exception: its class and its message. *)
Record exception : Type := mkException { class : string; msg : string }.

Definition RuntimeException (m : string) : exception :=
  mkException "RuntimeException" m.

Definition result (A : Type) : Type := outcome exception A.

(** The string functions the codec uses, on offsets and lengths that are
    not negative. *)
Definition strlen (s : list byte) : nat := length s.

Definition substr (s : list byte) (offset len : nat) : list byte :=
  firstn len (skipn offset s).

(** [$s[$i]]: the one-byte string at offset [i] (the empty string when
    there is none). *)
Definition offset (s : list byte) (i : nat) : list byte := substr s i 1.

(** [ord($s)]: the value of the first byte, 0 for the empty string. *)
Definition ord (s : list byte) : nat :=
  match s with
  | [] => 0
  | b :: _ => Byte.to_nat b
  end.

Definition chr (n : nat) : list byte := [byte_of_int n].

(** A PHP array with string keys and integer values, in insertion order.
    (PHP turns a key that spells a decimal integer into that integer; the
    conversion is one-to-one, so looking a key up by its string is the
    same.) *)
Definition array : Type := list (list byte * nat).

Fixpoint array_set (a : array) (k : list byte) (v : nat) : array :=
  match a with
  | [] => [(k, v)]
  | (k', v') :: a' =>
      if bytes_eqb k' k then (k', v) :: a' else (k', v') :: array_set a' k v
  end.

Fixpoint array_get (a : array) (k : list byte) : option nat :=
  match a with
  | [] => None
  | (k', v') :: a' => if bytes_eqb k' k then Some v' else array_get a' k
  end.

Definition isset (a : array) (k : list byte) : bool :=
  match array_get a k with
  | Some _ => true
  | None => false
  end.

(** [$a[$k]] where it is read as an integer: 0 for a key that is not set. *)
Definition array_int (a : array) (k : list byte) : nat :=
  match array_get a k with
  | Some v => v
  | None => 0
  end.

(** [array_flip] of a list: each value becomes a key, mapped to its index;
    a later occurrence of a value overwrites an earlier one. *)
Fixpoint array_flip_loop (i : nat) (vals : list (list byte)) (acc : array) : array :=
  match vals with
  | [] => acc
  | s :: vals' => array_flip_loop (S i) vals' (array_set acc s i)
  end.

Definition array_flip (vals : list (list byte)) : array :=
  array_flip_loop 0 vals [].

Definition VERBATIM_BYTE : nat := 254.
Definition VERBATIM_STRING : nat := 255.

(** [private static $decodeMap = [...]] *)
Definition decodeMap : list (list byte) :=
  [
    str " "; str "the"; str "e"; str "t"; str "a"; str "of"; str "o"; str "and"; str "i"; str "n"; str "s"; str "e "; str "r"; str " th";
    str " t"; str "in"; str "he"; str "th"; str "h"; str "he "; str "to"; [CR; LF]; str "l"; str "s "; str "d"; str " a"; str "an";
    str "er"; str "c"; str " o"; str "d "; str "on"; str " of"; str "re"; str "of "; str "t "; str ", "; str "is"; str "u"; str "at";
    str "   "; str "n "; str "or"; str "which"; str "f"; str "m"; str "as"; str "it"; str "that"; [LF]; str "was"; str "en";
    str "  "; str " w"; str "es"; str " an"; str " i"; [CR]; str "f "; str "g"; str "p"; str "nd"; str " s"; str "nd "; str "ed ";
    str "w"; str "ed"; str "http://"; str "for"; str "te"; str "ing"; str "y "; str "The"; str " c"; str "ti"; str "r "; str "his";
    str "st"; str " in"; str "ar"; str "nt"; str ","; str " to"; str "y"; str "ng"; str " h"; str "with"; str "le"; str "al"; str "to ";
    str "b"; str "ou"; str "be"; str "were"; str " b"; str "se"; str "o "; str "ent"; str "ha"; str "ng "; str "their"; [DQUOTE];
    str "hi"; str "from"; str " f"; str "in "; str "de"; str "ion"; str "me"; str "v"; str "."; str "ve"; str "all"; str "re ";
    str "ri"; str "ro"; str "is "; str "co"; str "f t"; str "are"; str "ea"; str ". "; str "her"; str " m"; str "er "; str " p";
    str "es "; str "by"; str "they"; str "di"; str "ra"; str "ic"; str "not"; str "s, "; str "d t"; str "at "; str "ce"; str "la";
    str "h "; str "ne"; str "as "; str "tio"; str "on "; str "n t"; str "io"; str "we"; str " a "; str "om"; str ", a"; str "s o";
    str "ur"; str "li"; str "ll"; str "ch"; str "had"; str "this"; str "e t"; str "g "; str "e" ++ [CR; LF]; str " wh"; str "ere";
    str " co"; str "e o"; str "a "; str "us"; str " d"; str "ss"; [LF; CR; LF]; [CR; LF; CR]; str "=" ++ [DQUOTE]; str " be"; str " e";
    str "s a"; str "ma"; str "one"; str "t t"; str "or "; str "but"; str "el"; str "so"; str "l "; str "e s"; str "s,"; str "no";
    str "ter"; str " wa"; str "iv"; str "ho"; str "e a"; str " r"; str "hat"; str "s t"; str "ns"; str "ch "; str "wh"; str "tr";
    str "ut"; str "/"; str "have"; str "ly "; str "ta"; str " ha"; str " on"; str "tha"; str "-"; str " l"; str "ati"; str "en ";
    str "pe"; str " re"; str "there"; str "ass"; str "si"; str " fo"; str "wa"; str "ec"; str "our"; str "who"; str "its"; str "z";
    str "fo"; str "rs"; str ">"; str "ot"; str "un"; str "<"; str "im"; str "th "; str "nc"; str "ate"; str "><"; str "ver"; str "ad";
    str " we"; str "ly"; str "ee"; str " n"; str "id"; str " cl"; str "ac"; str "il"; str "</"; str "rt"; str " wi"; str "div";
    str "e, "; str " it"; str "whi"; str " ma"; str "ge"; str "x"; str "e c"; str "men"; str ".com"
  ].

(** [getEncodeMap()]: the flipped [decodeMap] (cached after the first call). *)
Definition getEncodeMap : array := array_flip decodeMap.

(** [private static function flushVerbatim(string $verbatim): string] *)
Fixpoint flushVerbatim_loop (fuel : nat) (verbatim : list byte) (output : list byte)
    (pos : nat) : result (list byte) :=
  let len := strlen verbatim in
  if pos <? len then
    match fuel with
    | 0 => OutOfFuel
    | S fuel' =>
        let chunkSize := Nat.min 255 (len - pos) in
        let chunk := substr verbatim pos chunkSize in
        let output := if chunkSize =? 1
                      then output ++ chr VERBATIM_BYTE
                      else output ++ (chr VERBATIM_STRING ++ chr chunkSize) in
        flushVerbatim_loop fuel' verbatim (output ++ chunk) (pos + chunkSize)
    end
  else Ok output.

Definition flushVerbatim (verbatim : list byte) : result (list byte) :=
  flushVerbatim_loop (strlen verbatim) verbatim [] 0.

(** The [for ($j = $maxLen; $j > 0; $j--)] loop of [compress]: the cursor,
    output and verbatim buffer it leaves, and [$matched]. *)
Fixpoint compress_for (encodeMap : array) (input : list byte) (j : nat)
    (i : nat) (output verbatim : list byte)
  : result (nat * list byte * list byte * bool) :=
  match j with
  | 0 => Ok (i, output, verbatim, false)
  | S j' =>
      let chunk := substr input i j in
      if isset encodeMap chunk then
        '(output, verbatim) <-
          (if 0 <? strlen verbatim
           then flushed <- flushVerbatim verbatim ;; Ok (output ++ flushed, [])
           else Ok (output, verbatim)) ;;
        Ok (i + j, output ++ chr (array_int encodeMap chunk), verbatim, true)
      else compress_for encodeMap input j' i output verbatim
  end.

(** One turn of the [while] loop of [compress]. *)
Definition compress_step (encodeMap : array) (input : list byte) (i : nat)
    (output verbatim : list byte) : result (nat * list byte * list byte) :=
  let inputLen := strlen input in
  let maxLen := Nat.min 7 (inputLen - i) in
  '(i, output, verbatim, matched) <-
    compress_for encodeMap input maxLen i output verbatim ;;
  if negb matched then
    let verbatim := verbatim ++ offset input i in
    let i := i + 1 in
    '(output, verbatim) <-
      (if strlen verbatim =? 255
       then flushed <- flushVerbatim verbatim ;; Ok (output ++ flushed, [])
       else Ok (output, verbatim)) ;;
    Ok (i, output, verbatim)
  else Ok (i, output, verbatim).

Fixpoint compress_loop (fuel : nat) (encodeMap : array) (input : list byte)
    (i : nat) (output verbatim : list byte) : result (list byte * list byte) :=
  if i <? strlen input then
    match fuel with
    | 0 => OutOfFuel
    | S fuel' =>
        '(i, output, verbatim) <- compress_step encodeMap input i output verbatim ;;
        compress_loop fuel' encodeMap input i output verbatim
    end
  else Ok (output, verbatim).

(** [public static function compress(string $input): string] *)
Definition compress (input : list byte) : result (list byte) :=
  let encodeMap := getEncodeMap in
  '(output, verbatim) <- compress_loop (strlen input) encodeMap input 0 [] [] ;;
  if 0 <? strlen verbatim
  then flushed <- flushVerbatim verbatim ;; Ok (output ++ flushed)
  else Ok output.

(** One turn of the [while] loop of [decompress]. *)
Definition decompress_step (input : list byte) (i : nat) (output : list byte)
  : result (nat * list byte) :=
  let inputLen := strlen input in
  let code := ord (offset input i) in
  if code =? VERBATIM_BYTE then
    if inputLen <=? i + 1 then
      Err (RuntimeException "Incomplete verbatim byte sequence")
    else Ok (i + 2, output ++ offset input (i + 1))
  else if code =? VERBATIM_STRING then
    if inputLen <=? i + 1 then
      Err (RuntimeException "Incomplete verbatim string length")
    else
      let len := ord (offset input (i + 1)) in
      if inputLen <? i + 2 + len then
        Err (RuntimeException "Incomplete verbatim string data")
      else Ok (i + 2 + len, output ++ substr input (i + 2) len)
  else
    if length decodeMap <=? code then
      Err (RuntimeException
             ("Invalid code: " ++ NilEmpty.string_of_uint (Nat.to_uint code)))
    else Ok (i + 1, output ++ nth code decodeMap []).

Fixpoint decompress_loop (fuel : nat) (input : list byte) (i : nat)
    (output : list byte) : result (list byte) :=
  if i <? strlen input then
    match fuel with
    | 0 => OutOfFuel
    | S fuel' =>
        '(i, output) <- decompress_step input i output ;;
        decompress_loop fuel' input i output
    end
  else Ok output.

(** [public static function decompress(string $input): string] *)
Definition decompress (input : list byte) : result (list byte) :=
  decompress_loop (strlen input) input 0 [].

(** [function smaz_compress(string $input): string] *)
Definition smaz_compress (input : list byte) : result (list byte) :=
  compress input.

(** [function smaz_decompress(string $input): string] *)
Definition smaz_decompress (input : list byte) : result (list byte) :=
  decompress input.

End Php.

(** ** Definitions for the statements and the proofs *)

(** The last position of [p] in the list [ss]. *)
Fixpoint rindex (p : list byte) (ss : list (list byte)) : option nat :=
  match ss with
  | [] => None
  | s :: ss' =>
      match rindex p ss' with
      | Some k => Some (S k)
      | None => if bytes_eqb s p then Some 0 else None
      end
  end.

(** The longest non-empty prefix [p] of [w] on which [get] is defined, as
    its length and the value of [get] there. *)
Fixpoint longest_from {B : Type} (get : list byte -> option B) (w : list byte)
  : option (nat * B) :=
  match w with
  | [] => None
  | c :: w' =>
      match longest_from (fun p => get (c :: p)) w' with
      | Some (m, v) => Some (S m, v)
      | None =>
          match get [c] with
          | Some v => Some (1, v)
          | None => None
          end
      end
  end.

(** The value stored in a trie at the end of the path [p], when the node
    there is terminal. *)
Fixpoint trie_get (n : Go.trieNode) (p : list byte) {struct p} : option byte :=
  match p with
  | [] => if Go.terminal n then Some (Go.val n) else None
  | c :: p' =>
      match Go.branches n c with
      | None => None
      | Some m => trie_get m p'
      end
  end.

(** The trie built by the loop of [init], without the decode table. *)
Fixpoint build_trie (i : nat) (ss : list (list byte)) (t : Go.trieNode)
  : Go.trieNode :=
  match ss with
  | [] => t
  | s :: ss' => build_trie (S i) ss' (Go.put t s (byte_of_int i))
  end.

(** The entry that [Compress] would emit for exactly the bytes [p]: the
    code of the last position of [p] in the codebook. *)
Definition code_of (p : list byte) : option byte :=
  option_map byte_of_int (rindex p Go.codeStrings).

(** The search of the [for] loop of the PHP [compress]: the prefixes of
    [w] of length [j], [j - 1], ..., 1, until [get] is defined on one. *)
Fixpoint scan_down {B : Type} (get : list byte -> option B) (w : list byte)
    (j : nat) : option (nat * B) :=
  match j with
  | 0 => None
  | S j' =>
      match get (firstn j w) with
      | Some v => Some (j, v)
      | None => scan_down get w j'
      end
  end.

(** The frame of a verbatim buffer of 1 to 255 bytes. *)
Definition frame (v : list byte) : list byte :=
  if length v =? 1
  then Go.verbatimByte :: v
  else Go.verbatimString :: byte_of_int (length v) :: v.

Definition flush1 (v : list byte) : list byte :=
  if 0 <? length v then frame v else [].

(** One turn of the loop of [compress], as both implementations run it
    while the verbatim buffer holds fewer than 255 bytes. *)
Definition ref_step (input : list byte) (i : nat) (out v : list byte)
  : nat * list byte * list byte :=
  match longest_from code_of (firstn 7 (skipn i input)) with
  | Some (m, code) => (i + m, out ++ flush1 v ++ [code], [])
  | None =>
      let v' := v ++ firstn 1 (skipn i input) in
      if length v' =? 255 then (i + 1, out ++ frame v', []) else (i + 1, out, v')
  end.

Fixpoint ref_loop (fuel : nat) (input : list byte) (i : nat) (out v : list byte)
  : list byte * list byte :=
  if i <? length input then
    match fuel with
    | 0 => (out, v)
    | S fuel' =>
        let '(i', out', v') := ref_step input i out v in
        ref_loop fuel' input i' out' v'
    end
  else (out, v).

(** The compressed form of [input], as a function. *)
Definition encode (input : list byte) : list byte :=
  let '(out, v) := ref_loop (length input) input 0 [] [] in
  out ++ flush1 v.

(** The errors of the Go decoder. *)
Definition err_nil : Go.SmazError := Go.mkSmazError "input cannot be nil".
Definition err_byte : Go.SmazError :=
  Go.mkSmazError "incomplete verbatim byte sequence".
Definition err_length : Go.SmazError :=
  Go.mkSmazError "incomplete verbatim string length".
Definition err_data : Go.SmazError :=
  Go.mkSmazError "incomplete verbatim string data".
Definition err_code : Go.SmazError := Go.mkSmazError "invalid code".

(** The first token of a stream [code :: r] on the shipped codebook (where
    every byte below 254 is a code): the bytes it decodes to and the rest
    of the stream. *)
Definition next_token (code : byte) (r : list byte)
  : Go.result (list byte * list byte) :=
  if Byte.eqb code Go.verbatimByte then
    match r with
    | [] => Err err_byte
    | b :: r' => Ok ([b], r')
    end
  else if Byte.eqb code Go.verbatimString then
    match r with
    | [] => Err err_length
    | l :: r' =>
        if length r' <? Byte.to_nat l then Err err_data
        else Ok (firstn (Byte.to_nat l) r', skipn (Byte.to_nat l) r')
    end
  else Ok (nth (Byte.to_nat code) Go.codeStrings [], r).

(** The decoder as a function of the bytes that remain, token by token. *)
Fixpoint decode_fuel (fuel : nat) (s : list byte) : Go.result (list byte) :=
  match s with
  | [] => Ok []
  | code :: r =>
      match fuel with
      | 0 => OutOfFuel
      | S fuel' =>
          '(d, rest) <- next_token code r ;;
          x <- decode_fuel fuel' rest ;;
          Ok (d ++ x)
      end
  end.

Definition decode (s : list byte) : Go.result (list byte) :=
  decode_fuel (length s) s.

(** The Go and the PHP run end alike: with the same value, or both with
    an error of their language, or both cut by the fuel. *)
Definition agree {A : Type} (g : Go.result A) (p : Php.result A) : Prop :=
  match g, p with
  | Ok a, Ok b => a = b
  | Err _, Err _ => True
  | OutOfFuel, OutOfFuel => True
  | _, _ => False
  end.

(** Entry [k] of the codebook is [e], and [e] starts the bytes [s]. *)
Definition entry_at (k : nat) (e s : list byte) : Prop :=
  nth_error Go.codeStrings k = Some e /\ is_prefix e s = true.

(** No entry of the codebook starts the bytes [s]. *)
Definition no_entry_prefix (s : list byte) : bool :=
  forallb (fun e => negb (is_prefix e s)) Go.codeStrings.

(** No entry of the codebook occurs at any position of [s]. *)
Definition no_match_anywhere (s : list byte) : bool :=
  forallb (fun i => no_entry_prefix (skipn i s)) (seq 0 (length s)).

(** The strings of a list are pairwise different. *)
Fixpoint distinctb (l : list (list byte)) : bool :=
  match l with
  | [] => true
  | x :: l' => negb (existsb (bytes_eqb x) l') && distinctb l'
  end.

(** A complete token of a compressed stream: a code, the escape 254 with
    its byte, or the escape 255 with a length and that many bytes. *)
Inductive Complete : list byte -> Prop :=
| complete_code (c : byte) :
    c <> Go.verbatimByte -> c <> Go.verbatimString -> Complete [c]
| complete_byte (b : byte) : Complete [Go.verbatimByte; b]
| complete_string (l : byte) (data : list byte) :
    length data = Byte.to_nat l -> Complete (Go.verbatimString :: l :: data).

(** A token that the end of the input cuts short, with the error of the
    decoder for it: the escape 254 as the last byte, the escape 255 as the
    last byte, or a length that declares more bytes than remain. *)
Inductive Incomplete : Go.SmazError -> list byte -> Prop :=
| incomplete_byte : Incomplete err_byte [Go.verbatimByte]
| incomplete_length : Incomplete err_length [Go.verbatimString]
| incomplete_data (l : byte) (data : list byte) :
    length data < Byte.to_nat l ->
    Incomplete err_data (Go.verbatimString :: l :: data).

(** A stream of complete tokens followed by an incomplete one. *)
Inductive Truncated (e : Go.SmazError) : list byte -> Prop :=
| truncated_here (t : list byte) : Incomplete e t -> Truncated e t
| truncated_later (t s : list byte) :
    Complete t -> Truncated e s -> Truncated e (t ++ s).

(** The frames of a verbatim buffer of any length: one frame for each
    255 bytes, and one for what is left. *)
Fixpoint frames_fuel (fuel : nat) (v : list byte) : list byte :=
  match v with
  | [] => []
  | _ :: _ =>
      match fuel with
      | 0 => []
      | S fuel' => frame (firstn 255 v) ++ frames_fuel fuel' (skipn 255 v)
      end
  end.

Definition frames (v : list byte) : list byte := frames_fuel (length v) v.

(** An error of the Go decoder and an exception of the PHP decoder that
    report the same defect of the stream. *)
Definition same_error (e : Go.SmazError) (e' : Php.exception) : Prop :=
  (e = Go.mkSmazError "incomplete verbatim byte sequence" /\
   e' = Php.RuntimeException "Incomplete verbatim byte sequence") \/
  (e = Go.mkSmazError "incomplete verbatim string length" /\
   e' = Php.RuntimeException "Incomplete verbatim string length") \/
  (e = Go.mkSmazError "incomplete verbatim string data" /\
   e' = Php.RuntimeException "Incomplete verbatim string data").

(** The Go and the PHP run end alike, with errors that say the same. *)
Definition agree_errors {A : Type} (g : Go.result A) (p : Php.result A) : Prop :=
  match g, p with
  | Ok a, Ok b => a = b
  | Err e, Err e' => same_error e e'
  | OutOfFuel, OutOfFuel => True
  | _, _ => False
  end.

(** ** Lists of bytes *)

Lemma byte_eqb_refl (b : byte) : Byte.eqb b b = true.
Proof. apply Byte.byte_dec_lb. reflexivity. Qed.

Lemma byte_eqb_eq (a b : byte) : Byte.eqb a b = true <-> a = b.
Proof.
  split; [apply Byte.byte_dec_bl | apply Byte.byte_dec_lb].
Qed.

Lemma byte_eqb_neq (a b : byte) : Byte.eqb a b = false <-> a <> b.
Proof.
  split.
  - apply Byte.eqb_false.
  - intros Hne. destruct (Byte.eqb a b) eqn:E; [|reflexivity].
    apply byte_eqb_eq in E. contradiction.
Qed.

Lemma bytes_eqb_eq (a b : list byte) : bytes_eqb a b = true <-> a = b.
Proof.
  revert b. induction a as [|x a IH]; intros [|y b]; simpl;
    try (split; [discriminate | discriminate]); try tauto.
  rewrite andb_true_iff, byte_eqb_eq, IH.
  split; [intros [-> ->]; reflexivity | intros E; inversion E; auto].
Qed.

Lemma bytes_eqb_refl (a : list byte) : bytes_eqb a a = true.
Proof. apply bytes_eqb_eq. reflexivity. Qed.

Lemma bytes_eqb_neq (a b : list byte) : bytes_eqb a b = false <-> a <> b.
Proof.
  split.
  - intros E H. apply bytes_eqb_eq in H. congruence.
  - intros Hne. destruct (bytes_eqb a b) eqn:E; [|reflexivity].
    apply bytes_eqb_eq in E. contradiction.
Qed.

Lemma bytes_eqb_sym (a b : list byte) : bytes_eqb a b = bytes_eqb b a.
Proof.
  destruct (bytes_eqb a b) eqn:E1, (bytes_eqb b a) eqn:E2; try reflexivity.
  - apply bytes_eqb_eq in E1. subst. rewrite bytes_eqb_refl in E2. discriminate.
  - apply bytes_eqb_eq in E2. subst. rewrite bytes_eqb_refl in E1. discriminate.
Qed.

Lemma is_prefix_iff (e s : list byte) :
  is_prefix e s = true <-> firstn (length e) s = e.
Proof.
  revert s. induction e as [|x e IH]; intros s; simpl.
  - tauto.
  - destruct s as [|y s]; simpl.
    + split; discriminate.
    + rewrite andb_true_iff, byte_eqb_eq, IH.
      split; [intros [-> ->]; reflexivity | intros E; inversion E; subst; auto].
      split; [reflexivity|]. congruence.
Qed.

Lemma is_prefix_app (e s : list byte) :
  is_prefix e s = true <-> exists r, s = e ++ r.
Proof.
  rewrite is_prefix_iff. split.
  - intros H. exists (skipn (length e) s).
    rewrite <- H at 1. symmetry. apply firstn_skipn.
  - intros [r ->]. rewrite firstn_app, Nat.sub_diag, firstn_all. simpl.
    apply app_nil_r.
Qed.

(** ** The last position of an entry *)

Lemma rindex_Some (p : list byte) (ss : list (list byte)) (k : nat) :
  rindex p ss = Some k -> nth_error ss k = Some p.
Proof.
  revert k. induction ss as [|s ss IH]; intros k; simpl; [discriminate|].
  destruct (rindex p ss) as [k'|].
  - intros E. inversion E; subst. simpl. auto.
  - destruct (bytes_eqb s p) eqn:Es; [|discriminate].
    intros E. inversion E; subst. apply bytes_eqb_eq in Es. subst. reflexivity.
Qed.

Lemma rindex_None (p : list byte) (ss : list (list byte)) :
  rindex p ss = None <-> ~ In p ss.
Proof.
  induction ss as [|s ss IH]; simpl; [tauto|].
  destruct (rindex p ss) as [k'|].
  - split; [discriminate|]. intros H. exfalso. apply H. right.
    destruct IH as [_ IH]. destruct (in_dec (list_eq_dec Byte.byte_eq_dec) p ss); auto.
    specialize (IH n). discriminate.
  - destruct (bytes_eqb s p) eqn:Es.
    + apply bytes_eqb_eq in Es. split; [discriminate|]. intros H. exfalso. auto.
    + apply bytes_eqb_neq in Es. split; [|reflexivity]. intros _ [H|H]; [auto|].
      apply IH in H; auto.
Qed.

Lemma rindex_lt (p : list byte) (ss : list (list byte)) (k : nat) :
  rindex p ss = Some k -> k < length ss.
Proof.
  intros H. apply rindex_Some in H. apply nth_error_Some. congruence.
Qed.

Lemma rindex_In (p : list byte) (ss : list (list byte)) :
  In p ss -> exists k, rindex p ss = Some k.
Proof.
  intros H. destruct (rindex p ss) as [k|] eqn:E; [eauto|].
  apply rindex_None in E. contradiction.
Qed.

(** ** The longest prefix on which a lookup is defined *)

Lemma longest_from_ext {B : Type} (f g : list byte -> option B) (w : list byte) :
  (forall p, f p = g p) -> longest_from f w = longest_from g w.
Proof.
  revert f g. induction w as [|c w IH]; intros f g H; simpl; [reflexivity|].
  rewrite (IH (fun p => f (c :: p)) (fun p => g (c :: p))) by (intros; apply H).
  rewrite H. reflexivity.
Qed.

Lemma longest_from_none {B : Type} (f : list byte -> option B) (w : list byte) :
  (forall p, f p = None) -> longest_from f w = None.
Proof.
  revert f. induction w as [|c w IH]; intros f H; simpl; [reflexivity|].
  rewrite IH by (intros; apply H). rewrite H. reflexivity.
Qed.

Lemma longest_from_map {B C : Type} (h : B -> C) (f : list byte -> option B)
    (w : list byte) :
  longest_from (fun p => option_map h (f p)) w
  = option_map (fun mv => (fst mv, h (snd mv))) (longest_from f w).
Proof.
  revert f. induction w as [|c w IH]; intros f; simpl; [reflexivity|].
  rewrite (IH (fun p => f (c :: p))).
  destruct (longest_from (fun p => f (c :: p)) w) as [[m v]|]; simpl; [reflexivity|].
  destruct (f [c]); reflexivity.
Qed.

(** What a result of [longest_from] says: the lookup is defined on the
    prefix of that length and on no longer prefix. *)
Lemma longest_from_None {B : Type} (f : list byte -> option B) (w : list byte) :
  longest_from f w = None ->
  forall j, 1 <= j -> j <= length w -> f (firstn j w) = None.
Proof.
  revert f. induction w as [|c w IH]; intros f; simpl; [intros; lia|].
  destruct (longest_from (fun p => f (c :: p)) w) as [[m' v']|] eqn:E;
    [discriminate|].
  destruct (f [c]) eqn:Ec; [discriminate|].
  intros _ [|[|j]] H1 H2; [lia | exact Ec |].
  change (firstn (S (S j)) (c :: w)) with (c :: firstn (S j) w).
  apply (IH _ E); lia.
Qed.

Lemma longest_from_Some {B : Type} (f : list byte -> option B) (w : list byte)
    (m : nat) (v : B) :
  longest_from f w = Some (m, v) ->
  1 <= m <= length w /\ f (firstn m w) = Some v /\
  forall j, m < j -> j <= length w -> f (firstn j w) = None.
Proof.
  revert f m v. induction w as [|c w IH]; intros f m v; simpl; [discriminate|].
  destruct (longest_from (fun p => f (c :: p)) w) as [[m' v']|] eqn:E.
  - intros H. inversion H; subst. apply IH in E. destruct E as [Hm [Hf Hj]].
    split; [lia|]. split; [exact Hf|].
    intros [|j] H1 H2; [lia|]. simpl. apply Hj; lia.
  - destruct (f [c]) eqn:Ec; [|discriminate].
    intros H. inversion H; subst. split; [lia|]. split; [exact Ec|].
    intros [|[|j]] H1 H2; try lia.
    change (firstn (S (S j)) (c :: w)) with (c :: firstn (S j) w).
    apply (longest_from_None _ _ E); lia.
Qed.

(** Conversely, a prefix on which the lookup is defined is found, or a
    longer one. *)
Lemma longest_from_defined {B : Type} (f : list byte -> option B) (w : list byte)
    (j : nat) (v : B) :
  1 <= j -> j <= length w -> f (firstn j w) = Some v ->
  exists m v', longest_from f w = Some (m, v') /\ j <= m.
Proof.
  intros H1 H2 Hf. destruct (longest_from f w) as [[m v']|] eqn:E.
  - exists m, v'. split; [reflexivity|].
    destruct (le_lt_dec j m) as [Hle|Hlt]; [exact Hle|].
    apply longest_from_Some in E. destruct E as [_ [_ Hj]].
    rewrite (Hj j Hlt H2) in Hf. discriminate.
  - rewrite (longest_from_None _ _ E j H1 H2) in Hf. discriminate.
Qed.

(** ** The trie *)

Lemma trie_get_zero (p : list byte) : trie_get Go.zeroNode p = None.
Proof. destruct p; reflexivity. Qed.

Lemma trie_get_put (n : Go.trieNode) (key : list byte) (v : byte) (p : list byte) :
  trie_get (Go.put n key v) p
  = if bytes_eqb key p then Some v else trie_get n p.
Proof.
  revert n p. induction key as [|c key IH]; intros n p.
  - destruct p as [|x p]; destruct n; reflexivity.
  - destruct p as [|x p].
    + destruct n; reflexivity.
    + cbn [Go.put trie_get bytes_eqb Go.branches]. unfold Go.set_branch.
      destruct n as [br vl tm]. cbn [Go.branches].
      destruct (Byte.eqb x c) eqn:Exc.
      * apply byte_eqb_eq in Exc. subst x. rewrite byte_eqb_refl. simpl.
        rewrite IH. destruct (bytes_eqb key p); [reflexivity|].
        destruct (br c); [reflexivity | apply trie_get_zero].
      * assert (Byte.eqb c x = false) as ->.
        { apply byte_eqb_neq. apply byte_eqb_neq in Exc. congruence. }
        reflexivity.
Qed.

Lemma trie_get_build (ss : list (list byte)) (i : nat) (t : Go.trieNode)
    (p : list byte) :
  trie_get (build_trie i ss t) p
  = match rindex p ss with
    | Some k => Some (byte_of_int (i + k))
    | None => trie_get t p
    end.
Proof.
  revert i t. induction ss as [|s ss IH]; intros i t; simpl; [reflexivity|].
  rewrite IH. destruct (rindex p ss) as [k|].
  - f_equal. f_equal. lia.
  - rewrite trie_get_put. destruct (bytes_eqb s p); [|reflexivity].
    f_equal. f_equal. lia.
Qed.

(** [findLongestPrefix] walks as [longest_from] searches. *)
Lemma findLongestPrefix_loop_spec (n : Go.trieNode) (input : list byte) (i : nat)
    (lastMatch : nat) (lastCode : byte) :
  Go.findLongestPrefix_loop n input i lastMatch lastCode
  = match longest_from (trie_get n) input with
    | Some (m, v) => (i + m, v)
    | None => (lastMatch, lastCode)
    end.
Proof.
  revert n i lastMatch lastCode.
  induction input as [|c input IH]; intros n i lastMatch lastCode; simpl;
    [reflexivity|].
  destruct (Go.branches n c) as [n'|] eqn:Eb.
  - rewrite (longest_from_ext _ (trie_get n')) by (intros; reflexivity).
    destruct (Go.terminal n') eqn:Et; rewrite IH;
      destruct (longest_from (trie_get n') input) as [[m v]|];
      try (f_equal; lia); reflexivity.
  - rewrite longest_from_none by (intros; reflexivity). reflexivity.
Qed.

Lemma init_loop_trie (ss : list (list byte)) (i : nat) (d d' : list (list byte))
    (t t' : Go.trieNode) :
  Go.init_loop i ss d t = Ok (d', t') -> t' = build_trie i ss t.
Proof.
  revert i d t. induction ss as [|s ss IH]; intros i d t; simpl.
  - intros H. inversion H. reflexivity.
  - destruct (Go.set_index d i s) as [d1| | |]; simpl; try discriminate.
    apply IH.
Qed.

(** After [init], the decode table is the codebook. *)
Lemma decodeMap_eq : Go.decodeMap = Go.codeStrings.
Proof. vm_compute. reflexivity. Qed.

Lemma codeTrie_eq : Go.codeTrie = build_trie 0 Go.codeStrings Go.zeroNode.
Proof.
  pose proof decodeMap_eq as H. unfold Go.decodeMap, Go.codeTrie in *.
  destruct Go.init as [[d t]| | |] eqn:E; try discriminate H.
  apply (init_loop_trie _ _ _ _ _ _ E).
Qed.

Lemma codeTrie_get (p : list byte) : trie_get Go.codeTrie p = code_of p.
Proof.
  rewrite codeTrie_eq, trie_get_build. unfold code_of.
  destruct (rindex p Go.codeStrings); [reflexivity | apply trie_get_zero].
Qed.

Lemma findLongestPrefix_spec (w : list byte) :
  Go.findLongestPrefix Go.codeTrie w
  = match longest_from code_of w with
    | Some (m, v) => (m, v)
    | None => (0, x00)
    end.
Proof.
  unfold Go.findLongestPrefix. rewrite findLongestPrefix_loop_spec.
  rewrite (longest_from_ext _ code_of) by apply codeTrie_get.
  reflexivity.
Qed.

(** ** The codebook *)

Lemma codeStrings_length : length Go.codeStrings = 254.
Proof. reflexivity. Qed.

Lemma codeStrings_entry_length :
  forallb (fun e => (1 <=? length e) && (length e <=? 7)) Go.codeStrings = true.
Proof. vm_compute. reflexivity. Qed.

Lemma codeStrings_In_length (e : list byte) :
  In e Go.codeStrings -> 1 <= length e <= 7.
Proof.
  intros H. pose proof codeStrings_entry_length as Hall.
  rewrite forallb_forall in Hall. specialize (Hall e H).
  apply andb_true_iff in Hall. destruct Hall as [H1 H2].
  apply Nat.leb_le in H1, H2. lia.
Qed.

Lemma byte_of_int_to_nat (k : nat) : k < 256 -> Byte.to_nat (byte_of_int k) = k.
Proof.
  intros H. unfold byte_of_int. rewrite Nat.mod_small by exact H.
  destruct (Byte.of_nat k) as [b|] eqn:E.
  - apply Byte.to_of_nat. exact E.
  - apply Byte.of_nat_None_iff in E. lia.
Qed.

Lemma byte_of_int_of_to_nat (b : byte) : byte_of_int (Byte.to_nat b) = b.
Proof.
  unfold byte_of_int. pose proof (Byte.to_nat_bounded b).
  rewrite Nat.mod_small by lia. rewrite Byte.of_to_nat. reflexivity.
Qed.

(** A code of the codebook is the position of its entry, below 254. *)
Lemma code_of_Some (p : list byte) (c : byte) :
  code_of p = Some c ->
  Byte.to_nat c < 254 /\ nth_error Go.codeStrings (Byte.to_nat c) = Some p /\
  rindex p Go.codeStrings = Some (Byte.to_nat c) /\ 1 <= length p <= 7.
Proof.
  unfold code_of. destruct (rindex p Go.codeStrings) as [k|] eqn:E; [|discriminate].
  simpl. intros H. inversion H; subst. clear H.
  pose proof (rindex_lt _ _ _ E) as Hk. rewrite codeStrings_length in Hk.
  rewrite byte_of_int_to_nat by lia.
  split; [exact Hk|]. split; [apply rindex_Some; exact E|]. split; [reflexivity|].
  apply codeStrings_In_length. apply rindex_Some in E.
  apply nth_error_In in E. exact E.
Qed.

Lemma code_of_In (p : list byte) :
  In p Go.codeStrings <-> exists c, code_of p = Some c.
Proof.
  unfold code_of. split.
  - intros H. apply rindex_In in H. destruct H as [k ->]. simpl. eauto.
  - intros [c H]. destruct (rindex p Go.codeStrings) as [k|] eqn:E; [|discriminate].
    apply rindex_Some in E. apply nth_error_In in E. exact E.
Qed.

(** ** The PHP array of codes *)

Lemma array_get_set (a : Php.array) (k : list byte) (v : nat) (p : list byte) :
  Php.array_get (Php.array_set a k v) p
  = if bytes_eqb k p then Some v else Php.array_get a p.
Proof.
  induction a as [|[k' v'] a IH]; simpl.
  - reflexivity.
  - destruct (bytes_eqb k' k) eqn:Ek; simpl.
    + apply bytes_eqb_eq in Ek. subst k'. destruct (bytes_eqb k p); reflexivity.
    + destruct (bytes_eqb k' p) eqn:Ep.
      * apply bytes_eqb_eq in Ep. subst k'. rewrite bytes_eqb_sym, Ek. reflexivity.
      * exact IH.
Qed.

Lemma array_get_flip_loop (ss : list (list byte)) (i : nat) (acc : Php.array)
    (p : list byte) :
  Php.array_get (Php.array_flip_loop i ss acc) p
  = match rindex p ss with
    | Some k => Some (i + k)
    | None => Php.array_get acc p
    end.
Proof.
  revert i acc. induction ss as [|s ss IH]; intros i acc; simpl; [reflexivity|].
  rewrite IH. destruct (rindex p ss) as [k|].
  - f_equal. lia.
  - rewrite array_get_set. destruct (bytes_eqb s p); [|reflexivity].
    f_equal. lia.
Qed.

(** The two implementations carry the same codebook. *)
Lemma php_decodeMap_eq : Php.decodeMap = Go.codeStrings.
Proof. reflexivity. Qed.

Lemma encodeMap_get (p : list byte) :
  Php.array_get Php.getEncodeMap p = rindex p Go.codeStrings.
Proof.
  unfold Php.getEncodeMap, Php.array_flip. rewrite array_get_flip_loop.
  rewrite php_decodeMap_eq. destruct (rindex p Go.codeStrings); reflexivity.
Qed.

Lemma scan_down_cons {B : Type} (get : list byte -> option B) (c : byte)
    (w : list byte) (j : nat) :
  scan_down get (c :: w) (S j)
  = match scan_down (fun p => get (c :: p)) w j with
    | Some (m, v) => Some (S m, v)
    | None =>
        match get [c] with
        | Some v => Some (1, v)
        | None => None
        end
    end.
Proof.
  induction j as [|j IH].
  - simpl. destruct (get [c]); reflexivity.
  - change (scan_down get (c :: w) (S (S j)))
      with (match get (c :: firstn (S j) w) with
            | Some v => Some (S (S j), v)
            | None => scan_down get (c :: w) (S j)
            end).
    change (scan_down (fun p => get (c :: p)) w (S j))
      with (match get (c :: firstn (S j) w) with
            | Some v => Some (S j, v)
            | None => scan_down (fun p => get (c :: p)) w j
            end).
    destruct (get (c :: firstn (S j) w)); [reflexivity | exact IH].
Qed.

(** Searching downwards from the whole window finds the longest prefix. *)
Lemma scan_down_longest {B : Type} (get : list byte -> option B) (w : list byte) :
  scan_down get w (length w) = longest_from get w.
Proof.
  revert get. induction w as [|c w IH]; intros get; [reflexivity|].
  cbn [length]. rewrite scan_down_cons, IH. reflexivity.
Qed.

Lemma scan_down_firstn {B : Type} (get : list byte -> option B) (w : list byte)
    (j n : nat) :
  j <= n -> scan_down get (firstn n w) j = scan_down get w j.
Proof.
  induction j as [|j IH]; intros H; [reflexivity|].
  cbn [scan_down]. rewrite firstn_firstn, Nat.min_l by lia.
  rewrite IH by lia. reflexivity.
Qed.

(** ** Flushing the verbatim buffer *)

Ltac nat_cases :=
  repeat match goal with
    | |- context [?a <? ?b] => destruct (Nat.ltb_spec a b)
    | |- context [?a <=? ?b] => destruct (Nat.leb_spec a b)
    | |- context [?a =? ?b] => destruct (Nat.eqb_spec a b)
    end; try lia.

Lemma firstn_min_length {A : Type} (n : nat) (l : list A) :
  firstn (Nat.min n (length l)) l = firstn n l.
Proof.
  destruct (Nat.le_ge_cases n (length l)) as [H|H].
  - rewrite Nat.min_l by exact H. reflexivity.
  - rewrite Nat.min_r by exact H. rewrite firstn_all. symmetry.
    apply firstn_all2. exact H.
Qed.

Lemma subslice_ok {A : Type} (s : list A) (lo hi : nat) :
  lo <= hi -> hi <= length s ->
  Go.subslice s lo hi = Ok (firstn (hi - lo) (skipn lo s)).
Proof.
  intros H1 H2. unfold Go.subslice.
  apply Nat.leb_le in H1, H2. rewrite H1, H2. reflexivity.
Qed.

Lemma index_ok {A : Type} (s : list A) (i : nat) (x : A) :
  nth_error s i = Some x -> Go.index s i = Ok x.
Proof. intros H. unfold Go.index. rewrite H. reflexivity. Qed.

Lemma skipn_nth_error {A : Type} (s : list A) (i : nat) :
  i < length s -> exists x, nth_error s i = Some x /\ firstn 1 (skipn i s) = [x].
Proof.
  revert i. induction s as [|y s IH]; intros i H; simpl in H; [lia|].
  destruct i as [|i].
  - exists y. split; reflexivity.
  - simpl. apply IH. lia.
Qed.

Lemma go_flushVerbatim_loop_done (fuel : nat) (out v : list byte) (pos : nat) :
  length v <= pos -> Go.flushVerbatim_loop fuel out v pos = Ok out.
Proof.
  intros H. apply Nat.ltb_ge in H. destruct fuel; simpl; rewrite H; reflexivity.
Qed.

Lemma go_flushVerbatim_frame (out v : list byte) :
  1 <= length v <= 255 -> Go.flushVerbatim out v = Ok (out ++ frame v).
Proof.
  intros H. unfold Go.flushVerbatim.
  destruct (length v) as [|n] eqn:En; [lia|].
  cbn [Go.flushVerbatim_loop]. rewrite En.
  assert ((0 <? S n) = true) as -> by (apply Nat.ltb_lt; lia).
  rewrite Nat.sub_0_r.
  assert ((if S n <? 255 then S n else 255) = S n) as -> by (nat_cases).
  rewrite subslice_ok by lia.
  replace (0 + S n - 0) with (length v) by lia.
  rewrite skipn_O, firstn_all. cbn [bind].
  rewrite go_flushVerbatim_loop_done by lia.
  unfold frame. rewrite En.
  destruct (S n =? 1); rewrite <- app_assoc; reflexivity.
Qed.

Lemma php_flushVerbatim_loop_done (fuel : nat) (v out : list byte) (pos : nat) :
  length v <= pos -> Php.flushVerbatim_loop fuel v out pos = Ok out.
Proof.
  intros H. apply Nat.ltb_ge in H. unfold Php.strlen.
  destruct fuel; simpl; unfold Php.strlen; rewrite H; reflexivity.
Qed.

Lemma php_flushVerbatim_frame (v : list byte) :
  1 <= length v <= 255 -> Php.flushVerbatim v = Ok (frame v).
Proof.
  intros H. unfold Php.flushVerbatim, Php.strlen.
  destruct (length v) as [|n] eqn:En; [lia|].
  cbn [Php.flushVerbatim_loop]. unfold Php.strlen. rewrite En.
  assert ((0 <? S n) = true) as -> by (apply Nat.ltb_lt; lia).
  rewrite Nat.sub_0_r, Nat.min_r by lia.
  unfold Php.substr. rewrite skipn_O, <- En, firstn_all.
  rewrite php_flushVerbatim_loop_done by lia.
  unfold frame. rewrite En.
  destruct (S n =? 1); reflexivity.
Qed.

(** ** One turn of the loop of [compress] *)

Lemma window_eq (input : list byte) (i : nat) :
  i <= length input ->
  firstn (i + (if length input - i <? 7 then length input - i else 7) - i)
    (skipn i input)
  = firstn 7 (skipn i input).
Proof.
  intros H. rewrite <- (firstn_min_length 7), length_skipn.
  f_equal. nat_cases.
Qed.

Lemma go_Compress_step_ref (input : list byte) (i : nat) (out v : list byte) :
  i < length input -> length v < 255 ->
  Go.Compress_step input i out v = Ok (ref_step input i out v).
Proof.
  intros Hi Hv. unfold Go.Compress_step, ref_step.
  rewrite subslice_ok by (nat_cases).
  rewrite window_eq by lia. cbn [bind].
  rewrite findLongestPrefix_spec.
  destruct (longest_from code_of (firstn 7 (skipn i input))) as [[m code]|] eqn:E.
  - apply longest_from_Some in E. destruct E as [[Hm _] _].
    assert ((0 <? m) = true) as -> by (apply Nat.ltb_lt; lia).
    unfold flush1. destruct (Nat.ltb_spec 0 (length v)) as [Hl|Hl].
    + rewrite go_flushVerbatim_frame by lia. cbn [bind].
      rewrite <- app_assoc. reflexivity.
    + destruct v; [|simpl in Hl; lia]. reflexivity.
  - cbn [Nat.ltb Nat.leb].
    destruct (skipn_nth_error input i Hi) as [c [Hc Hw]].
    rewrite (index_ok _ _ _ Hc), Hw. cbn [bind].
    destruct (Nat.eqb_spec (length (v ++ [c])) 255) as [Hl|Hl].
    + rewrite go_flushVerbatim_frame by lia. reflexivity.
    + reflexivity.
Qed.

Lemma php_compress_for_scan (em : Php.array) (input : list byte) (j i : nat)
    (out v : list byte) :
  length v <= 255 ->
  Php.compress_for em input j i out v
  = match scan_down (Php.array_get em) (skipn i input) j with
    | Some (m, k) => Ok (i + m, out ++ flush1 v ++ [byte_of_int k], [], true)
    | None => Ok (i, out, v, false)
    end.
Proof.
  intros Hv. induction j as [|j IH]; [reflexivity|].
  cbn [Php.compress_for scan_down]. unfold Php.isset, Php.array_int, Php.substr.
  destruct (Php.array_get em (firstn (S j) (skipn i input))) as [k|]; [|exact IH].
  unfold flush1, Php.strlen. destruct (Nat.ltb_spec 0 (length v)) as [Hl|Hl].
  - rewrite php_flushVerbatim_frame by lia. cbn [bind]. unfold Php.chr.
    rewrite <- app_assoc. reflexivity.
  - destruct v; [|simpl in Hl; lia]. reflexivity.
Qed.

Lemma php_compress_step_ref (input : list byte) (i : nat) (out v : list byte) :
  i < length input -> length v < 255 ->
  Php.compress_step Php.getEncodeMap input i out v = Ok (ref_step input i out v).
Proof.
  intros Hi Hv. unfold Php.compress_step, ref_step, Php.strlen.
  rewrite php_compress_for_scan by lia.
  rewrite <- (scan_down_firstn _ _ _ (Nat.min 7 (length input - i))) by lia.
  assert (Nat.min 7 (length input - i)
          = length (firstn (Nat.min 7 (length input - i)) (skipn i input))) as Hlen.
  { rewrite length_firstn, length_skipn. lia. }
  rewrite Hlen at 2. rewrite scan_down_longest.
  rewrite <- length_skipn, firstn_min_length.
  rewrite (longest_from_ext _ (fun p => rindex p Go.codeStrings))
    by apply encodeMap_get.
  unfold code_of. rewrite longest_from_map.
  destruct (longest_from (fun p => rindex p Go.codeStrings)
              (firstn 7 (skipn i input))) as [[m k]|]; cbn [option_map bind fst snd negb].
  - reflexivity.
  - unfold Php.offset, Php.substr, Php.strlen.
    destruct (Nat.eqb_spec (length (v ++ firstn 1 (skipn i input))) 255) as [Hl|Hl].
    + rewrite php_flushVerbatim_frame by lia. reflexivity.
    + reflexivity.
Qed.

(** ** The loop of [compress] *)

Lemma ref_step_progress (input : list byte) (i : nat) (out v : list byte) :
  i < length input -> length v < 255 ->
  let '(i', _, v') := ref_step input i out v in
  i < i' /\ i' <= length input /\ length v' < 255.
Proof.
  intros Hi Hv. unfold ref_step.
  destruct (longest_from code_of (firstn 7 (skipn i input))) as [[m code]|] eqn:E.
  - apply longest_from_Some in E. destruct E as [[Hm Hm'] _].
    rewrite length_firstn, length_skipn in Hm'. simpl. lia.
  - destruct (skipn_nth_error input i Hi) as [c [_ ->]].
    destruct (Nat.eqb_spec (length (v ++ [c])) 255) as [Hl|Hl]; simpl; [lia|].
    rewrite length_app in *. simpl in *. lia.
Qed.

Lemma ref_loop_verbatim_bound (fuel : nat) (input : list byte) (i : nat)
    (out v : list byte) :
  length v < 255 -> length (snd (ref_loop fuel input i out v)) < 255.
Proof.
  revert i out v. induction fuel as [|fuel IH]; intros i out v Hv; simpl.
  - destruct (i <? length input); exact Hv.
  - destruct (Nat.ltb_spec i (length input)) as [Hi|Hi]; [|exact Hv].
    pose proof (ref_step_progress input i out v Hi Hv) as Hp.
    destruct (ref_step input i out v) as [[i' out'] v'].
    apply IH. tauto.
Qed.

Lemma go_Compress_loop_ref (fuel : nat) (input : list byte) (i : nat)
    (out v : list byte) :
  length v < 255 -> length input - i <= fuel ->
  Go.Compress_loop fuel input i out v = Ok (ref_loop fuel input i out v).
Proof.
  revert i out v. induction fuel as [|fuel IH]; intros i out v Hv Hf; simpl.
  - destruct (Nat.ltb_spec i (length input)) as [Hi|Hi]; [lia | reflexivity].
  - destruct (Nat.ltb_spec i (length input)) as [Hi|Hi]; [|reflexivity].
    rewrite go_Compress_step_ref by assumption. cbn [bind].
    pose proof (ref_step_progress input i out v Hi Hv) as Hp.
    destruct (ref_step input i out v) as [[i' out'] v'].
    apply IH; lia.
Qed.

Lemma php_compress_loop_ref (fuel : nat) (input : list byte) (i : nat)
    (out v : list byte) :
  length v < 255 -> length input - i <= fuel ->
  Php.compress_loop fuel Php.getEncodeMap input i out v
  = Ok (ref_loop fuel input i out v).
Proof.
  revert i out v. induction fuel as [|fuel IH]; intros i out v Hv Hf; simpl;
    unfold Php.strlen.
  - destruct (Nat.ltb_spec i (length input)) as [Hi|Hi]; [lia | reflexivity].
  - destruct (Nat.ltb_spec i (length input)) as [Hi|Hi]; [|reflexivity].
    rewrite php_compress_step_ref by assumption. cbn [bind].
    pose proof (ref_step_progress input i out v Hi Hv) as Hp.
    destruct (ref_step input i out v) as [[i' out'] v'].
    apply IH; lia.
Qed.

(** [Compress] returns, without error, the function [encode] of its input. *)
Lemma go_Compress_encode (input : list byte) :
  Go.Compress (Some input) = Ok (encode input).
Proof.
  unfold Go.Compress, encode.
  rewrite go_Compress_loop_ref by (simpl; lia). cbn [bind].
  pose proof (ref_loop_verbatim_bound (length input) input 0 [] []) as Hb.
  destruct (ref_loop (length input) input 0 [] []) as [out v].
  simpl in Hb. unfold flush1.
  destruct (Nat.ltb_spec 0 (length v)) as [Hl|Hl].
  - apply go_flushVerbatim_frame. lia.
  - rewrite app_nil_r. reflexivity.
Qed.

Lemma php_compress_encode (input : list byte) :
  Php.compress input = Ok (encode input).
Proof.
  unfold Php.compress, encode, Php.strlen.
  rewrite php_compress_loop_ref by (simpl; lia). cbn [bind].
  pose proof (ref_loop_verbatim_bound (length input) input 0 [] []) as Hb.
  destruct (ref_loop (length input) input 0 [] []) as [out v].
  simpl in Hb. unfold flush1.
  destruct (Nat.ltb_spec 0 (length v)) as [Hl|Hl].
  - rewrite php_flushVerbatim_frame by lia. reflexivity.
  - rewrite app_nil_r. reflexivity.
Qed.

(** ** The decoder, token by token *)

Lemma skipn_cons_nth {A : Type} (s : list A) (i : nat) :
  i < length s ->
  exists x, nth_error s i = Some x /\ skipn i s = x :: skipn (S i) s.
Proof.
  revert i. induction s as [|y s IH]; intros i H; simpl in H; [lia|].
  destruct i as [|i].
  - exists y. split; reflexivity.
  - destruct (IH i) as [x [H1 H2]]; [lia|]. exists x. split; [exact H1|].
    simpl. exact H2.
Qed.

Lemma non_escape_lt (c : byte) :
  Byte.eqb c Go.verbatimByte = false -> Byte.eqb c Go.verbatimString = false ->
  Byte.to_nat c < 254.
Proof.
  intros H1 H2. apply Nat.ltb_lt.
  destruct c; try reflexivity; discriminate.
Qed.

Lemma lt_non_escape (c : byte) :
  Byte.to_nat c < 254 ->
  Byte.eqb c Go.verbatimByte = false /\ Byte.eqb c Go.verbatimString = false.
Proof.
  intros H. apply Nat.ltb_lt in H.
  destruct c; try (split; reflexivity); discriminate.
Qed.

Lemma go_Decompress_loop_decode (fuel : nat) (input : list byte) (i : nat)
    (out : list byte) :
  i <= length input ->
  Go.Decompress_loop Go.decodeMap fuel input i out
  = (x <- decode_fuel fuel (skipn i input) ;; Ok (out ++ x)).
Proof.
  revert i out. induction fuel as [|fuel IH]; intros i out Hi.
  - cbn [Go.Decompress_loop].
    destruct (Nat.ltb_spec i (length input)) as [Hlt|Hge].
    + destruct (skipn_cons_nth input i Hlt) as [c [_ ->]]. reflexivity.
    + rewrite skipn_all2 by lia. simpl. rewrite app_nil_r. reflexivity.
  - cbn [Go.Decompress_loop].
    destruct (Nat.ltb_spec i (length input)) as [Hlt|Hge].
    2:{ rewrite skipn_all2 by lia. simpl. rewrite app_nil_r. reflexivity. }
    destruct (skipn_cons_nth input i Hlt) as [c [Hc ->]].
    unfold Go.Decompress_step. rewrite (index_ok _ _ _ Hc).
    cbn [bind decode_fuel]. unfold next_token.
    destruct (Byte.eqb c Go.verbatimByte) eqn:E1.
    { destruct (Nat.leb_spec (length input) (i + 1)) as [Hl|Hl].
      - rewrite skipn_all2 by lia. reflexivity.
      - destruct (skipn_cons_nth input (S i)) as [b [Hb ->]]; [lia|].
        replace (i + 1) with (S i) by lia. rewrite (index_ok _ _ _ Hb).
        cbn [bind]. rewrite IH by lia. replace (i + 2) with (S (S i)) by lia.
        destruct (decode_fuel fuel (skipn (S (S i)) input)); cbn [bind];
          try reflexivity.
        rewrite <- app_assoc. reflexivity. }
    destruct (Byte.eqb c Go.verbatimString) eqn:E2.
    { destruct (Nat.leb_spec (length input) (i + 1)) as [Hl|Hl].
      - rewrite skipn_all2 by lia. reflexivity.
      - destruct (skipn_cons_nth input (S i)) as [l [Hb ->]]; [lia|].
        replace (i + 1) with (S i) by lia. rewrite (index_ok _ _ _ Hb).
        cbn [bind]. rewrite length_skipn.
        destruct (Nat.ltb_spec (length input) (i + 2 + Byte.to_nat l)) as [Hd|Hd].
        + assert ((length input - S (S i) <? Byte.to_nat l) = true) as ->
            by (apply Nat.ltb_lt; lia).
          reflexivity.
        + assert ((length input - S (S i) <? Byte.to_nat l) = false) as ->
            by (apply Nat.ltb_ge; lia).
          rewrite subslice_ok by lia. cbn [bind]. rewrite IH by lia.
          replace (i + 2 + Byte.to_nat l - (i + 2)) with (Byte.to_nat l) by lia.
          replace (i + 2) with (S (S i)) by lia.
          rewrite skipn_skipn.
          replace (Byte.to_nat l + S (S i)) with (S (S i) + Byte.to_nat l) by lia.
          destruct (decode_fuel fuel (skipn (S (S i) + Byte.to_nat l) input));
            cbn [bind]; try reflexivity.
          rewrite <- app_assoc. reflexivity. }
    pose proof (non_escape_lt c E1 E2) as Hc254.
    rewrite decodeMap_eq, codeStrings_length.
    assert ((254 <=? Byte.to_nat c) = false) as -> by (apply Nat.leb_gt; lia).
    assert (Go.index Go.codeStrings (Byte.to_nat c)
            = Ok (nth (Byte.to_nat c) Go.codeStrings [])) as ->.
    { apply index_ok. apply nth_error_nth'. rewrite codeStrings_length. lia. }
    cbn [bind]. rewrite IH by lia. replace (i + 1) with (S i) by lia.
    destruct (decode_fuel fuel (skipn (S i) input)); cbn [bind]; try reflexivity.
    rewrite <- app_assoc. reflexivity.
Qed.

Lemma go_Decompress_decode (s : list byte) : Go.Decompress (Some s) = decode s.
Proof.
  unfold Go.Decompress, Go.DecompressWith, decode.
  rewrite go_Decompress_loop_decode by lia. simpl.
  destruct (decode_fuel (length s) s); reflexivity.
Qed.

Lemma next_token_length (c : byte) (r d rest : list byte) :
  next_token c r = Ok (d, rest) -> length rest <= length r.
Proof.
  unfold next_token.
  destruct (Byte.eqb c Go.verbatimByte).
  { destruct r as [|b r']; [discriminate|]. intros H. inversion H; subst.
    simpl. lia. }
  destruct (Byte.eqb c Go.verbatimString).
  { destruct r as [|l r']; [discriminate|].
    destruct (length r' <? Byte.to_nat l); [discriminate|].
    intros H. inversion H; subst. rewrite length_skipn. simpl. lia. }
  intros H. inversion H; subst. lia.
Qed.

Lemma next_token_app (c : byte) (r d rest b : list byte) :
  next_token c r = Ok (d, rest) -> next_token c (r ++ b) = Ok (d, rest ++ b).
Proof.
  unfold next_token.
  destruct (Byte.eqb c Go.verbatimByte).
  { destruct r as [|x r']; [discriminate|]. intros H. inversion H; subst.
    reflexivity. }
  destruct (Byte.eqb c Go.verbatimString).
  { destruct r as [|l r']; [discriminate|]. cbn [app].
    destruct (Nat.ltb_spec (length r') (Byte.to_nat l)) as [Hl|Hl]; [discriminate|].
    intros H. inversion H; subst. rewrite length_app.
    assert ((length r' + length b <? Byte.to_nat l) = false) as ->
      by (apply Nat.ltb_ge; lia).
    rewrite firstn_app, skipn_app.
    replace (Byte.to_nat l - length r') with 0 by lia.
    simpl. rewrite app_nil_r. reflexivity. }
  intros H. inversion H; subst. reflexivity.
Qed.

(** Enough fuel is any fuel. *)
Lemma decode_fuel_enough (f f' : nat) (s : list byte) :
  length s <= f -> length s <= f' -> decode_fuel f s = decode_fuel f' s.
Proof.
  revert f' s. induction f as [|f IH]; intros f' s Hf Hf'.
  - destruct s; [|simpl in Hf; lia]. destruct f'; reflexivity.
  - destruct s as [|c r]; [destruct f'; reflexivity|].
    destruct f' as [|f']; [simpl in Hf'; lia|].
    cbn [decode_fuel]. destruct (next_token c r) as [[d rest]| | |] eqn:E;
      cbn [bind]; try reflexivity.
    apply next_token_length in E. simpl in Hf, Hf'.
    rewrite (IH f' rest) by lia. reflexivity.
Qed.

Lemma decode_nil : decode [] = Ok [].
Proof. reflexivity. Qed.

Lemma decode_cons (c : byte) (r : list byte) :
  decode (c :: r)
  = ('(d, rest) <- next_token c r ;; x <- decode rest ;; Ok (d ++ x)).
Proof.
  unfold decode. cbn [length decode_fuel].
  destruct (next_token c r) as [[d rest]| | |] eqn:E; cbn [bind]; try reflexivity.
  apply next_token_length in E.
  rewrite (decode_fuel_enough (length r) (length rest)) by lia. reflexivity.
Qed.

(** The decoder never runs out of fuel and never panics. *)
Lemma decode_total (s : list byte) :
  (exists x, decode s = Ok x) \/ (exists e, decode s = Err e).
Proof.
  remember (length s) as n eqn:Hn. revert s Hn.
  induction n as [n IH] using lt_wf_ind. intros s Hn.
  destruct s as [|c r]; [left; exists []; reflexivity|].
  rewrite decode_cons.
  destruct (next_token c r) as [[d rest]| | |] eqn:E; cbn [bind].
  - pose proof (next_token_length _ _ _ _ E) as Hl.
    destruct (IH (length rest)) with (s := rest) as [[x Hx]|[e He]];
      [simpl in Hn; lia | reflexivity | |].
    + rewrite Hx. left. eexists. reflexivity.
    + rewrite He. right. eexists. reflexivity.
  - right. eexists. reflexivity.
  - unfold next_token in E.
    destruct (Byte.eqb c Go.verbatimByte); [destruct r; discriminate|].
    destruct (Byte.eqb c Go.verbatimString); [|discriminate].
    destruct r; [discriminate|]. destruct (_ <? _); discriminate.
  - unfold next_token in E.
    destruct (Byte.eqb c Go.verbatimByte); [destruct r; discriminate|].
    destruct (Byte.eqb c Go.verbatimString); [|discriminate].
    destruct r; [discriminate|]. destruct (_ <? _); discriminate.
Qed.

(** Decoding a stream that decodes, followed by another stream. *)
Lemma decode_app (a b x : list byte) :
  decode a = Ok x -> decode (a ++ b) = (y <- decode b ;; Ok (x ++ y)).
Proof.
  remember (length a) as n eqn:Hn. revert a x Hn.
  induction n as [n IH] using lt_wf_ind. intros a x Hn Ha.
  destruct a as [|c r].
  - inversion Ha; subst. simpl. destruct (decode b); reflexivity.
  - rewrite decode_cons in Ha. cbn [app]. rewrite decode_cons.
    destruct (next_token c r) as [[d rest]| | |] eqn:E; try discriminate.
    rewrite (next_token_app _ _ _ _ b E). cbn [bind] in *.
    destruct (decode rest) as [x'| | |] eqn:Er; try discriminate.
    cbn [bind] in Ha. inversion Ha; subst.
    apply next_token_length in E.
    rewrite (IH (length rest)) with (x := x'); [|simpl; lia|reflexivity|exact Er].
    destruct (decode b); cbn [bind]; try reflexivity.
    rewrite app_assoc. reflexivity.
Qed.

(** ** Decoding what the encoder emits *)

Lemma decode_frame (v : list byte) :
  1 <= length v <= 255 -> decode (frame v) = Ok v.
Proof.
  intros H. unfold frame. destruct (Nat.eqb_spec (length v) 1) as [H1|H1].
  - destruct v as [|b [|b' v]]; try discriminate. reflexivity.
  - unfold Go.verbatimString. rewrite decode_cons. unfold next_token.
    cbn [Byte.eqb Byte.to_bits Bool.eqb andb Go.verbatimByte Go.verbatimString].
    rewrite byte_of_int_to_nat by lia.
    rewrite Nat.ltb_irrefl. cbn [bind].
    rewrite skipn_all, firstn_all. rewrite decode_nil. cbn [bind].
    rewrite app_nil_r. reflexivity.
Qed.

Lemma decode_flush1 (v : list byte) :
  length v <= 255 -> decode (flush1 v) = Ok v.
Proof.
  intros H. unfold flush1. destruct (Nat.ltb_spec 0 (length v)) as [Hl|Hl].
  - apply decode_frame. lia.
  - destruct v; [reflexivity | simpl in Hl; lia].
Qed.

Lemma decode_code (p : list byte) (code : byte) :
  code_of p = Some code -> decode [code] = Ok p.
Proof.
  intros H. apply code_of_Some in H. destruct H as [Hlt [Hnth _]].
  destruct (lt_non_escape code Hlt) as [E1 E2].
  rewrite decode_cons. unfold next_token. rewrite E1, E2. cbn [bind].
  rewrite decode_nil. cbn [bind]. rewrite app_nil_r.
  f_equal. apply nth_error_nth. exact Hnth.
Qed.

Lemma firstn_add {A : Type} (l : list A) (i m : nat) :
  firstn (i + m) l = firstn i l ++ firstn m (skipn i l).
Proof.
  revert l. induction i as [|i IH]; intros l; [reflexivity|].
  destruct l as [|x l]; simpl.
  - rewrite firstn_nil. reflexivity.
  - rewrite IH. reflexivity.
Qed.

(** The invariant of the loop: the output decodes to the input read so
    far, less the bytes that wait in the verbatim buffer. *)
Lemma ref_step_decodes (input : list byte) (i : nat) (out v x : list byte) :
  i < length input -> length v < 255 ->
  decode out = Ok x -> x ++ v = firstn i input ->
  let '(i', out', v') := ref_step input i out v in
  exists x', decode out' = Ok x' /\ x' ++ v' = firstn i' input.
Proof.
  intros Hi Hv Hd Hx. unfold ref_step.
  destruct (longest_from code_of (firstn 7 (skipn i input))) as [[m code]|] eqn:E.
  - apply longest_from_Some in E. destruct E as [[Hm Hm'] [Hc _]].
    rewrite firstn_firstn in Hc. rewrite length_firstn in Hm'.
    rewrite Nat.min_l in Hc by lia.
    exists (x ++ v ++ firstn m (skipn i input)). split.
    + rewrite (decode_app _ _ _ Hd).
      rewrite (decode_app _ _ _ (decode_flush1 v ltac:(lia))).
      rewrite (decode_code _ _ Hc). reflexivity.
    + rewrite app_nil_r, firstn_add, <- Hx, <- app_assoc. reflexivity.
  - destruct (skipn_nth_error input i Hi) as [c [Hc Hw]].
    assert (firstn (i + 1) input = (x ++ v) ++ [c]) as Hnext.
    { rewrite firstn_add, Hw, Hx. reflexivity. }
    rewrite Hw.
    destruct (Nat.eqb_spec (length (v ++ [c])) 255) as [Hl|Hl].
    + exists (x ++ v ++ [c]). split.
      * rewrite (decode_app _ _ _ Hd), decode_frame by lia. reflexivity.
      * rewrite app_nil_r, Hnext, <- app_assoc. reflexivity.
    + exists x. split; [exact Hd|]. rewrite Hnext, <- app_assoc. reflexivity.
Qed.

Lemma ref_loop_decodes (fuel : nat) (input : list byte) (i : nat)
    (out v x : list byte) :
  i <= length input -> length v < 255 -> length input - i <= fuel ->
  decode out = Ok x -> x ++ v = firstn i input ->
  let '(out', v') := ref_loop fuel input i out v in
  exists x', decode out' = Ok x' /\ x' ++ v' = input.
Proof.
  revert i out v x. induction fuel as [|fuel IH]; intros i out v x Hi Hv Hf Hd Hx;
    cbn [ref_loop].
  - destruct (Nat.ltb_spec i (length input)) as [Hlt|Hge]; [lia|].
    exists x. split; [exact Hd|]. rewrite Hx. apply firstn_all2. lia.
  - destruct (Nat.ltb_spec i (length input)) as [Hlt|Hge].
    2:{ exists x. split; [exact Hd|]. rewrite Hx. apply firstn_all2. lia. }
    pose proof (ref_step_progress input i out v Hlt Hv) as Hp.
    pose proof (ref_step_decodes input i out v x Hlt Hv Hd Hx) as Hs.
    destruct (ref_step input i out v) as [[i' out'] v'].
    destruct Hs as [x' [Hd' Hx']].
    apply (IH i' out' v' x'); try tauto; lia.
Qed.

Lemma decode_encode (s : list byte) : decode (encode s) = Ok s.
Proof.
  unfold encode.
  pose proof (ref_loop_decodes (length s) s 0 [] [] []) as H.
  pose proof (ref_loop_verbatim_bound (length s) s 0 [] []) as Hb.
  destruct (ref_loop (length s) s 0 [] []) as [out v].
  destruct H as [x [Hd Hx]]; simpl; try lia; try reflexivity.
  simpl in Hb. rewrite (decode_app _ _ _ Hd), decode_flush1 by lia.
  cbn [bind]. rewrite Hx. reflexivity.
Qed.

(** ** The PHP decoder *)

Lemma byte_eqb_to_nat (a b : byte) :
  Byte.eqb a b = (Byte.to_nat a =? Byte.to_nat b).
Proof.
  destruct (Byte.eqb a b) eqn:E.
  - apply byte_eqb_eq in E. subst. symmetry. apply Nat.eqb_refl.
  - symmetry. apply Nat.eqb_neq. intros H. apply byte_eqb_neq in E. apply E.
    assert (Some a = Some b) as Hab
      by (rewrite <- (Byte.of_to_nat a), <- (Byte.of_to_nat b), H; reflexivity).
    inversion Hab. reflexivity.
Qed.

Lemma php_decompress_loop_decode (fuel : nat) (input : list byte) (i : nat)
    (out : list byte) :
  i <= length input ->
  agree (x <- decode_fuel fuel (skipn i input) ;; Ok (out ++ x))
        (Php.decompress_loop fuel input i out).
Proof.
  revert i out. induction fuel as [|fuel IH]; intros i out Hi.
  - cbn [Php.decompress_loop]. unfold Php.strlen.
    destruct (Nat.ltb_spec i (length input)) as [Hlt|Hge].
    + destruct (skipn_cons_nth input i Hlt) as [c [_ ->]]. exact I.
    + rewrite skipn_all2 by lia. simpl. apply app_nil_r.
  - cbn [Php.decompress_loop]. unfold Php.strlen.
    destruct (Nat.ltb_spec i (length input)) as [Hlt|Hge].
    2:{ rewrite skipn_all2 by lia. simpl. apply app_nil_r. }
    destruct (skipn_cons_nth input i Hlt) as [c [Hc Hs]].
    unfold Php.decompress_step, Php.offset, Php.substr, Php.strlen.
    rewrite Hs. cbn [firstn Php.ord decode_fuel]. unfold next_token.
    unfold Php.VERBATIM_BYTE, Php.VERBATIM_STRING.
    rewrite !byte_eqb_to_nat.
    change (Byte.to_nat Go.verbatimByte) with 254.
    change (Byte.to_nat Go.verbatimString) with 255.
    destruct (Nat.eqb_spec (Byte.to_nat c) 254) as [E1|E1].
    { destruct (Nat.leb_spec (length input) (i + 1)) as [Hl|Hl].
      - rewrite skipn_all2 by lia. exact I.
      - destruct (skipn_cons_nth input (S i)) as [b [Hb Hs']]; [lia|].
        replace (i + 1) with (S i) by lia. rewrite Hs'.
        cbn [bind firstn]. replace (i + 2) with (S (S i)) by lia.
        specialize (IH (S (S i)) (out ++ [b]) ltac:(lia)).
        destruct (decode_fuel fuel (skipn (S (S i)) input)); cbn [bind] in *;
          try exact IH.
        rewrite <- app_assoc in IH. exact IH. }
    destruct (Nat.eqb_spec (Byte.to_nat c) 255) as [E2|E2].
    { destruct (Nat.leb_spec (length input) (i + 1)) as [Hl|Hl].
      - rewrite skipn_all2 by lia. exact I.
      - destruct (skipn_cons_nth input (S i)) as [l [Hb Hs']]; [lia|].
        replace (i + 1) with (S i) by lia. rewrite Hs'.
        cbn [bind firstn Php.ord]. rewrite length_skipn.
        destruct (Nat.ltb_spec (length input) (i + 2 + Byte.to_nat l)) as [Hd|Hd].
        + assert ((length input - S (S i) <? Byte.to_nat l) = true) as ->
            by (apply Nat.ltb_lt; lia).
          exact I.
        + assert ((length input - S (S i) <? Byte.to_nat l) = false) as ->
            by (apply Nat.ltb_ge; lia).
          cbn [bind]. replace (i + 2) with (S (S i)) by lia.
          rewrite skipn_skipn.
          replace (Byte.to_nat l + S (S i)) with (S (S i) + Byte.to_nat l) by lia.
          specialize (IH (S (S i) + Byte.to_nat l)
                        (out ++ firstn (Byte.to_nat l) (skipn (S (S i)) input))
                        ltac:(lia)).
          destruct (decode_fuel fuel (skipn (S (S i) + Byte.to_nat l) input));
            cbn [bind] in *; try exact IH.
          rewrite <- app_assoc in IH. exact IH. }
    pose proof (Byte.to_nat_bounded c) as Hb.
    rewrite php_decodeMap_eq, codeStrings_length.
    assert ((254 <=? Byte.to_nat c) = false) as -> by (apply Nat.leb_gt; lia).
    cbn [bind]. replace (i + 1) with (S i) by lia.
    specialize (IH (S i) (out ++ nth (Byte.to_nat c) Go.codeStrings []) ltac:(lia)).
    destruct (decode_fuel fuel (skipn (S i) input)); cbn [bind] in *; try exact IH.
    rewrite <- app_assoc in IH. exact IH.
Qed.

Lemma php_decompress_decode (s : list byte) : agree (decode s) (Php.decompress s).
Proof.
  pose proof (php_decompress_loop_decode (length s) s 0 [] ltac:(lia)) as H.
  unfold Php.decompress, Php.strlen, decode. simpl in H.
  destruct (decode_fuel (length s) s); exact H.
Qed.

(** * The properties of the codec *)

(** C1. Round trip: for every byte sequence [s] (empty or not, whatever
    bytes it holds, 254 and 255 included), [Compress] succeeds on [s] and
    [Decompress], on the shipped codebook, succeeds on what [Compress]
    returned and gives back exactly [s]. *)
Theorem C1_round_trip (s : list byte) :
  exists c, Go.Compress (Some s) = Ok c /\ Go.Decompress (Some c) = Ok s.
Proof.
  exists (encode s). split.
  - apply go_Compress_encode.
  - rewrite go_Decompress_decode. apply decode_encode.
Qed.

(** C7. The Go and the PHP implementation compute the same functions: on
    every byte sequence [s] both compressors return the same bytes, and
    both decompressors either succeed with the same bytes or both fail. *)
Theorem C7_go_php_agree (s : list byte) :
  (exists c, Go.Compress (Some s) = Ok c /\ Php.compress s = Ok c) /\
  ((exists x, Go.Decompress (Some s) = Ok x /\ Php.decompress s = Ok x) \/
   (exists e e', Go.Decompress (Some s) = Err e /\ Php.decompress s = Err e')).
Proof.
  split.
  - exists (encode s). split; [apply go_Compress_encode | apply php_compress_encode].
  - rewrite go_Decompress_decode. pose proof (php_decompress_decode s) as H.
    destruct (decode_total s) as [[x Hx]|[e He]].
    + left. exists x. split; [exact Hx|]. rewrite Hx in H.
      destruct (Php.decompress s); simpl in H; try contradiction. congruence.
    + right. rewrite He in H.
      destruct (Php.decompress s) as [?|e'| |]; simpl in H; try contradiction.
      exists e, e'. split; [exact He | reflexivity].
Qed.

(** C8. [Compress] of the empty byte sequence is the empty byte sequence,
    and [Decompress] of the empty byte sequence succeeds with the empty
    byte sequence. *)
Theorem C8_empty :
  Go.Compress (Some []) = Ok [] /\ Go.Decompress (Some []) = Ok [].
Proof. split; reflexivity. Qed.

(** C9. [Compress] fails only on a [nil] input: on every byte sequence that
    is not [nil], the empty one included, it returns a result and no error,
    while [Compress] and [Decompress] both reject a [nil] input with an
    error. *)
Theorem C9_nil_input :
  (forall s, exists c, Go.Compress (Some s) = Ok c) /\
  Go.Compress (Some []) = Ok [] /\
  Go.Compress None = Err (Go.mkSmazError "input cannot be nil") /\
  Go.Decompress None = Err (Go.mkSmazError "input cannot be nil").
Proof.
  split; [|repeat split].
  intros s. exists (encode s). apply go_Compress_encode.
Qed.

(** C10. Decoding distributes over the concatenation of a stream that
    decodes with any other stream: when [Decompress a] succeeds with [x],
    [Decompress (a ++ b)] succeeds exactly when [Decompress b] does, with
    [x] followed by the result of [Decompress b] (and fails with the error
    of [Decompress b] otherwise). *)
Theorem C10_decompress_app (a b x : list byte) :
  Go.Decompress (Some a) = Ok x ->
  Go.Decompress (Some (a ++ b)) = (y <- Go.Decompress (Some b) ;; Ok (x ++ y)) /\
  ((exists z, Go.Decompress (Some (a ++ b)) = Ok z) <->
   (exists y, Go.Decompress (Some b) = Ok y)) /\
  (forall y, Go.Decompress (Some b) = Ok y ->
             Go.Decompress (Some (a ++ b)) = Ok (x ++ y)).
Proof.
  rewrite !go_Decompress_decode. intros Ha.
  pose proof (decode_app a b x Ha) as H. rewrite H.
  split; [reflexivity|]. split.
  - destruct (decode b) as [y| | |]; cbn [bind]; split; intros [z Hz];
      try discriminate; eauto.
  - intros y ->. reflexivity.
Qed.

Lemma C10_decompress_app_witness :
  Go.Decompress (Some [xfe; x41]) = Ok [x41] /\
  Go.Decompress (Some ([xfe; x41] ++ [x01; xff; x00]))
  = Ok ([x41] ++ [x74; x68; x65]).
Proof.
  split; [reflexivity|].
  apply (C10_decompress_app [xfe; x41] [x01; xff; x00] [x41]); reflexivity.
Defined.

(** ** Matches and runs without a match *)

Lemma is_prefix_firstn (n : nat) (s : list byte) : is_prefix (firstn n s) s = true.
Proof.
  apply is_prefix_app. exists (skipn n s). symmetry. apply firstn_skipn.
Qed.

Lemma is_prefix_length (e s : list byte) :
  is_prefix e s = true -> length e <= length s.
Proof.
  intros H. apply is_prefix_app in H. destruct H as [r ->].
  rewrite length_app. lia.
Qed.

Lemma firstn_window (j : nat) (s : list byte) :
  j <= 7 -> firstn j (firstn 7 s) = firstn j s.
Proof. intros H. rewrite firstn_firstn, Nat.min_l by exact H. reflexivity. Qed.

(** The match found at a cursor is an entry of the codebook that starts
    the remaining bytes, and no longer entry does. *)
Lemma longest_entry (s : list byte) (m : nat) (code : byte) :
  longest_from code_of (firstn 7 s) = Some (m, code) ->
  entry_at (Byte.to_nat code) (firstn m s) s /\ length (firstn m s) = m /\
  forall k' e', entry_at k' e' s -> length e' <= m.
Proof.
  intros H. apply longest_from_Some in H. destruct H as [[Hm Hm'] [Hc Hj]].
  rewrite length_firstn in Hm', Hj.
  rewrite firstn_window in Hc by lia.
  pose proof (code_of_Some _ _ Hc) as [_ [Hnth _]].
  split; [split; [exact Hnth | apply is_prefix_firstn]|].
  split; [rewrite length_firstn; lia|].
  intros k' e' [Hk' Hp'].
  destruct (le_lt_dec (length e') m) as [Hle|Hlt]; [exact Hle|exfalso].
  pose proof (codeStrings_In_length e' (nth_error_In _ _ Hk')) as Hlen.
  pose proof (is_prefix_length _ _ Hp') as Hls.
  specialize (Hj (length e') Hlt ltac:(lia)).
  rewrite firstn_window in Hj by lia.
  apply is_prefix_iff in Hp'. rewrite Hp' in Hj.
  assert (In e' Go.codeStrings) as Hin by (eapply nth_error_In; exact Hk').
  apply code_of_In in Hin. destruct Hin as [c Hc']. congruence.
Qed.

Lemma longest_exists (s : list byte) (k : nat) (e : list byte) :
  entry_at k e s -> exists m code, longest_from code_of (firstn 7 s) = Some (m, code).
Proof.
  intros [Hk Hp].
  destruct (longest_from code_of (firstn 7 s)) as [[m code]|] eqn:E; [eauto|exfalso].
  pose proof (codeStrings_In_length e (nth_error_In _ _ Hk)) as Hlen.
  pose proof (is_prefix_length _ _ Hp) as Hls.
  pose proof (longest_from_None _ _ E (length e)) as Hn.
  rewrite length_firstn, firstn_window in Hn by lia.
  apply is_prefix_iff in Hp. rewrite Hp in Hn.
  assert (In e Go.codeStrings) as Hin by (eapply nth_error_In; exact Hk).
  apply code_of_In in Hin. destruct Hin as [c Hc'].
  rewrite Hn in Hc' by lia. discriminate.
Qed.

Lemma no_entry_prefix_longest (s : list byte) :
  no_entry_prefix s = true -> longest_from code_of (firstn 7 s) = None.
Proof.
  intros H.
  destruct (longest_from code_of (firstn 7 s)) as [[m code]|] eqn:E; [exfalso|reflexivity].
  apply longest_entry in E. destruct E as [[Hnth Hp] _].
  unfold no_entry_prefix in H. rewrite forallb_forall in H.
  specialize (H _ (nth_error_In _ _ Hnth)). rewrite Hp in H. discriminate.
Qed.

Lemma no_match_anywhere_at (s : list byte) (j : nat) :
  no_match_anywhere s = true -> j < length s -> no_entry_prefix (skipn j s) = true.
Proof.
  unfold no_match_anywhere. rewrite forallb_forall. intros H Hj.
  apply H. apply in_seq. lia.
Qed.

Lemma ref_step_no_match (input : list byte) (i : nat) (out v : list byte) (c : byte) :
  no_entry_prefix (skipn i input) = true -> nth_error input i = Some c ->
  ref_step input i out v
  = if length (v ++ [c]) =? 255
    then (i + 1, out ++ frame (v ++ [c]), [])
    else (i + 1, out, v ++ [c]).
Proof.
  intros H Hc. unfold ref_step. rewrite (no_entry_prefix_longest _ H).
  assert (i < length input) as Hi by (apply nth_error_Some; congruence).
  destruct (skipn_nth_error input i Hi) as [c' [Hc' ->]].
  assert (c' = c) as -> by congruence. reflexivity.
Qed.

(** A run of [n] bytes without a match only fills the verbatim buffer, as
    long as it stays below 255 bytes. *)
Lemma ref_loop_run (n fuel : nat) (input : list byte) (i : nat) (out v : list byte) :
  (forall j, j < n -> no_entry_prefix (skipn (i + j) input) = true) ->
  i + n <= length input -> length v + n < 255 ->
  ref_loop (n + fuel) input i out v
  = ref_loop fuel input (i + n) out (v ++ firstn n (skipn i input)).
Proof.
  revert i v. induction n as [|n IH]; intros i v Hno Hi Hv.
  - rewrite Nat.add_0_r, app_nil_r. reflexivity.
  - cbn [Nat.add ref_loop].
    assert (i < length input) as Hlt by lia.
    apply Nat.ltb_lt in Hlt as Hltb. rewrite Hltb.
    destruct (skipn_cons_nth input i Hlt) as [c [Hc Hs]].
    rewrite (ref_step_no_match input i out v c); [| |exact Hc].
    2:{ rewrite <- (Nat.add_0_r i). apply Hno. lia. }
    assert ((length (v ++ [c]) =? 255) = false) as ->.
    { apply Nat.eqb_neq. rewrite length_app. simpl. lia. }
    rewrite IH.
    + replace (i + 1 + n) with (i + S n) by lia.
      rewrite Hs. cbn [firstn]. replace (i + 1) with (S i) by lia.
      rewrite <- app_assoc. reflexivity.
    + intros j Hj. replace (i + 1 + j) with (i + S j) by lia. apply Hno. lia.
    + lia.
    + rewrite length_app. simpl. lia.
Qed.

(** The byte that brings the verbatim buffer to 255 bytes flushes it. *)
Lemma ref_loop_full (fuel : nat) (input : list byte) (i : nat) (out v : list byte) :
  no_entry_prefix (skipn i input) = true -> i < length input -> length v = 254 ->
  ref_loop (S fuel) input i out v
  = ref_loop fuel input (i + 1) (out ++ frame (v ++ firstn 1 (skipn i input))) [].
Proof.
  intros Hno Hi Hv. cbn [ref_loop].
  apply Nat.ltb_lt in Hi as Hltb. rewrite Hltb.
  destruct (skipn_nth_error input i Hi) as [c [Hc ->]].
  rewrite (ref_step_no_match input i out v c Hno Hc).
  assert ((length (v ++ [c]) =? 255) = true) as ->.
  { apply Nat.eqb_eq. rewrite length_app, Hv. reflexivity. }
  reflexivity.
Qed.

Lemma ref_loop_end (fuel : nat) (input : list byte) (i : nat) (out v : list byte) :
  length input <= i -> ref_loop fuel input i out v = (out, v).
Proof.
  intros H. apply Nat.ltb_ge in H. destruct fuel; cbn [ref_loop]; rewrite H; reflexivity.
Qed.

Lemma encode_short_run (s : list byte) :
  1 <= length s < 255 -> no_match_anywhere s = true -> encode s = frame s.
Proof.
  intros Hl Hno. unfold encode.
  rewrite <- (Nat.add_0_r (length s)) at 1.
  rewrite ref_loop_run; [| |simpl; lia|simpl; lia].
  2:{ intros j Hj. apply no_match_anywhere_at; [exact Hno | exact Hj]. }
  rewrite ref_loop_end by (simpl; lia).
  rewrite skipn_O, firstn_all. cbn [app]. unfold flush1.
  assert ((0 <? length s) = true) as -> by (apply Nat.ltb_lt; lia).
  reflexivity.
Qed.

(** C3. Escape framing: a single byte at which no entry of the codebook
    matches compresses to exactly [254, b]; two bytes with no match at
    either position compress to exactly [255, 2, b0, b1]. *)
Theorem C3_escape_framing (b b0 b1 : byte) :
  (no_entry_prefix [b] = true -> Go.Compress (Some [b]) = Ok [xfe; b]) /\
  (no_match_anywhere [b0; b1] = true ->
   Go.Compress (Some [b0; b1]) = Ok [xff; x02; b0; b1]).
Proof.
  split; intros H; rewrite go_Compress_encode; f_equal.
  - apply encode_short_run; [simpl; lia|].
    unfold no_match_anywhere. simpl. rewrite H. reflexivity.
  - apply encode_short_run; [simpl; lia | exact H].
Qed.

Lemma C3_escape_framing_witness :
  (no_entry_prefix [x00] = true /\ Go.Compress (Some [x00]) = Ok [xfe; x00]) /\
  (no_match_anywhere [xfe; xff] = true /\
   Go.Compress (Some [xfe; xff]) = Ok [xff; x02; xfe; xff]).
Proof.
  pose proof (C3_escape_framing x00 xfe xff) as [H1 H2].
  split; (split; [vm_compute; reflexivity|]).
  - apply H1. vm_compute. reflexivity.
  - apply H2. vm_compute. reflexivity.
Defined.

Lemma ref_loop_255 (fuel : nat) (input : list byte) (out : list byte) :
  255 <= length input ->
  (forall j, j < 255 -> no_entry_prefix (skipn j input) = true) ->
  ref_loop (255 + fuel) input 0 out []
  = ref_loop fuel input 255 (out ++ frame (firstn 255 input)) [].
Proof.
  intros Hl Hno.
  change (255 + fuel) with (254 + S fuel).
  rewrite ref_loop_run; [|intros j Hj; apply Hno; simpl; lia | lia | simpl; lia].
  rewrite ref_loop_full.
  - cbn [app Nat.add]. rewrite skipn_O.
    rewrite <- (firstn_add input 254 1). reflexivity.
  - apply Hno. lia.
  - lia.
  - cbn [app]. rewrite skipn_O, length_firstn. lia.
Qed.

(** ** The greedy choice *)

Lemma distinctb_NoDup (l : list (list byte)) : distinctb l = true -> NoDup l.
Proof.
  induction l as [|x l IH]; simpl; intros H; [constructor|].
  apply andb_true_iff in H. destruct H as [Hx Hl].
  constructor; [|apply IH; exact Hl].
  intros Hin. apply negb_true_iff in Hx.
  assert (existsb (bytes_eqb x) l = true) as Hex.
  { apply existsb_exists. exists x. split; [exact Hin | apply bytes_eqb_refl]. }
  congruence.
Qed.

(** The entries of the codebook are pairwise different. *)
Lemma codeStrings_NoDup : NoDup Go.codeStrings.
Proof. apply distinctb_NoDup. vm_compute. reflexivity. Qed.

Lemma codeStrings_index_unique (k k' : nat) (e : list byte) :
  nth_error Go.codeStrings k = Some e -> nth_error Go.codeStrings k' = Some e ->
  k = k'.
Proof.
  intros H H'. pose proof codeStrings_NoDup as Hnd.
  rewrite NoDup_nth_error in Hnd. apply Hnd.
  - apply nth_error_Some. congruence.
  - congruence.
Qed.




(** ** Truncated streams *)

Lemma next_token_Err (c : byte) (r : list byte) (e : Go.SmazError) :
  next_token c r = Err e -> Incomplete e (c :: r).
Proof.
  unfold next_token.
  destruct (Byte.eqb c Go.verbatimByte) eqn:E1.
  { apply byte_eqb_eq in E1. subst c. destruct r as [|b r']; [|discriminate].
    intros H. inversion H. constructor. }
  destruct (Byte.eqb c Go.verbatimString) eqn:E2; [|discriminate].
  apply byte_eqb_eq in E2. subst c. destruct r as [|l r'].
  - intros H. inversion H. constructor.
  - destruct (Nat.ltb_spec (length r') (Byte.to_nat l)) as [Hl|Hl]; [|discriminate].
    intros H. inversion H. constructor. exact Hl.
Qed.

Lemma next_token_Ok (c : byte) (r d rest : list byte) :
  next_token c r = Ok (d, rest) ->
  exists t, c :: r = t ++ rest /\ Complete t.
Proof.
  unfold next_token.
  destruct (Byte.eqb c Go.verbatimByte) eqn:E1.
  { apply byte_eqb_eq in E1. subst c. destruct r as [|b r']; [discriminate|].
    intros H. inversion H; subst. exists [Go.verbatimByte; b].
    split; [reflexivity | constructor]. }
  destruct (Byte.eqb c Go.verbatimString) eqn:E2.
  { apply byte_eqb_eq in E2. subst c. destruct r as [|l r']; [discriminate|].
    destruct (Nat.ltb_spec (length r') (Byte.to_nat l)) as [Hl|Hl]; [discriminate|].
    intros H. inversion H; subst.
    exists (Go.verbatimString :: l :: firstn (Byte.to_nat l) r'). split.
    - cbn [app]. rewrite firstn_skipn. reflexivity.
    - constructor. rewrite length_firstn. lia. }
  intros H. inversion H; subst. exists [c]. split; [reflexivity|].
  apply byte_eqb_neq in E1, E2. constructor; assumption.
Qed.

Lemma Incomplete_decode (e : Go.SmazError) (t : list byte) :
  Incomplete e t -> decode t = Err e.
Proof.
  intros H. destruct H as [| |l data Hl]; try reflexivity.
  rewrite decode_cons. unfold next_token. cbn [Byte.eqb Byte.to_bits Bool.eqb andb
    Go.verbatimByte Go.verbatimString].
  apply Nat.ltb_lt in Hl. rewrite Hl. reflexivity.
Qed.

Lemma Complete_decode (t : list byte) :
  Complete t ->
  exists d, forall s, decode (t ++ s) = (x <- decode s ;; Ok (d ++ x)).
Proof.
  intros H. destruct H as [c H1 H2|b|l data Hl].
  - exists (nth (Byte.to_nat c) Go.codeStrings []). intros s. cbn [app].
    rewrite decode_cons. unfold next_token.
    apply byte_eqb_neq in H1, H2. rewrite H1, H2. reflexivity.
  - exists [b]. intros s. cbn [app]. rewrite decode_cons. reflexivity.
  - exists data. intros s. cbn [app]. rewrite decode_cons. unfold next_token.
    cbn [Byte.eqb Byte.to_bits Bool.eqb andb Go.verbatimByte Go.verbatimString].
    rewrite length_app.
    assert ((length data + length s <? Byte.to_nat l) = false) as ->
      by (apply Nat.ltb_ge; lia).
    cbn [bind]. rewrite <- Hl, firstn_app, skipn_app, Nat.sub_diag.
    rewrite firstn_all, skipn_all. simpl. rewrite app_nil_r. reflexivity.
Qed.

Lemma decode_Err_Truncated (s : list byte) (e : Go.SmazError) :
  decode s = Err e <-> Truncated e s.
Proof.
  split.
  - remember (length s) as n eqn:Hn. revert s Hn.
    induction n as [n IH] using lt_wf_ind. intros s Hn Hd.
    destruct s as [|c r]; [discriminate|].
    rewrite decode_cons in Hd.
    destruct (next_token c r) as [[d rest]|e'| |] eqn:E; cbn [bind] in Hd;
      try discriminate.
    + destruct (next_token_Ok _ _ _ _ E) as [t [Ht Hc]].
      apply next_token_length in E.
      destruct (decode rest) as [x|e'| |] eqn:Er; cbn [bind] in Hd;
        try discriminate.
      inversion Hd; subst e'. rewrite Ht. apply truncated_later; [exact Hc|].
      apply (IH (length rest)); [simpl in Hn; lia | reflexivity | exact Er].
    + inversion Hd; subst e'. apply truncated_here. apply next_token_Err. exact E.
  - intros H. induction H as [t Ht|t s Hc Hs IH].
    + apply Incomplete_decode. exact Ht.
    + destruct (Complete_decode t Hc) as [d Hd]. rewrite Hd, IH. reflexivity.
Qed.

(** C5. [Decompress] fails with a truncation error exactly when the stream
    is some complete tokens followed by an incomplete one: the escape 254
    as the last byte, the escape 255 as the last byte, or a length byte
    that declares more bytes than remain.  So [Decompress [254]] and
    [Decompress [255, 5, 1, 2]] fail (with no output), while the complete
    token [255, 0] is legal and adds nothing to the output. *)
Theorem C5_truncation :
  (forall s e, Go.Decompress (Some s) = Err e <-> Truncated e s) /\
  (forall s e, Truncated e s ->
     e = Go.mkSmazError "incomplete verbatim byte sequence" \/
     e = Go.mkSmazError "incomplete verbatim string length" \/
     e = Go.mkSmazError "incomplete verbatim string data") /\
  Go.Decompress (Some [xfe])
  = Err (Go.mkSmazError "incomplete verbatim byte sequence") /\
  Go.Decompress (Some [xff; x05; x01; x02])
  = Err (Go.mkSmazError "incomplete verbatim string data") /\
  Go.Decompress (Some [xff; x00]) = Ok [] /\
  (forall s, Go.Decompress (Some (xff :: x00 :: s)) = Go.Decompress (Some s)).
Proof.
  split; [|split; [|repeat split]].
  - intros s e. rewrite go_Decompress_decode. apply decode_Err_Truncated.
  - intros s e H. induction H as [t Ht|t s Hc Hs IH]; [|exact IH].
    destruct Ht; auto.
  - intros s. rewrite !go_Decompress_decode, decode_cons.
    cbn [next_token Byte.eqb Byte.to_bits Bool.eqb andb Go.verbatimByte
           Go.verbatimString Byte.to_nat Nat.ltb Nat.leb bind firstn skipn app].
    destruct (decode s); reflexivity.
Qed.

Lemma C5_truncation_witness :
  Truncated (Go.mkSmazError "incomplete verbatim byte sequence") [x01; xfe] /\
  Go.Decompress (Some [x01; xfe])
  = Err (Go.mkSmazError "incomplete verbatim byte sequence").
Proof.
  assert (Truncated (Go.mkSmazError "incomplete verbatim byte sequence")
            ([x01] ++ [xfe])) as H.
  { apply truncated_later.
    - apply complete_code; discriminate.
    - apply truncated_here. apply incomplete_byte. }
  split; [exact H|].
  apply (proj1 C5_truncation [x01; xfe]). exact H.
Defined.

(** ** Codes out of range *)






(** ** A run of both functions *)

(** The text [the quick brown fox]: the first byte emitted is code 1, the
    position of [the] in the codebook, and the output decodes to the text. *)
Example quick_brown_fox :
  Go.Compress (Some (str "the quick brown fox"))
  = Ok [x01; x00; xfe; x71; x26; x83; xfe; x6b; x5e; x73; x41; x29; xdc; xfa] /\
  nth_error Go.codeStrings 1 = Some (str "the") /\
  Go.Decompress
    (Some [x01; x00; xfe; x71; x26; x83; xfe; x6b; x5e; x73; x41; x29; xdc; xfa])
  = Ok (str "the quick brown fox").
Proof. repeat split; vm_compute; reflexivity. Qed.

(** * Further properties of the code *)

(** ** The trie on any keys *)

(** X1. Insert then look up: in any trie, after [put] of a key that is
    not empty with a value, [findLongestPrefix] on that key matches the
    whole key and returns the value. *)
Theorem put_findLongestPrefix (n : Go.trieNode) (key : list byte) (v : byte) :
  key <> [] ->
  Go.findLongestPrefix (Go.put n key v) key = (length key, v).
Proof.
  intros Hne. unfold Go.findLongestPrefix. rewrite findLongestPrefix_loop_spec.
  destruct (longest_from (trie_get (Go.put n key v)) key) as [[m v']|] eqn:E.
  - pose proof (longest_from_Some _ _ _ _ E) as [[Hm Hm'] [Hf Hj]].
    destruct (le_lt_dec (length key) m) as [Hle|Hlt].
    + assert (m = length key) as -> by lia.
      rewrite firstn_all, trie_get_put, bytes_eqb_refl in Hf.
      inversion Hf. reflexivity.
    + specialize (Hj (length key) Hlt (le_n _)).
      rewrite firstn_all, trie_get_put, bytes_eqb_refl in Hj. discriminate.
  - destruct key as [|c key]; [contradiction|].
    pose proof (longest_from_None _ _ E (length (c :: key))) as Hn.
    rewrite firstn_all, trie_get_put, bytes_eqb_refl in Hn.
    simpl in Hn. specialize (Hn ltac:(lia) ltac:(lia)). discriminate.
Qed.

Lemma put_findLongestPrefix_witness :
  str "ab" <> [] /\
  Go.findLongestPrefix (Go.put Go.codeTrie (str "ab") x07) (str "ab") = (2, x07).
Proof.
  assert (str "ab" <> []) as H by discriminate.
  split; [exact H|]. exact (put_findLongestPrefix Go.codeTrie (str "ab") x07 H).
Defined.

(** X2. The match that [findLongestPrefix] reports is never longer than
    its input: in any trie the length returned is at most [len(input)], and
    when it is 0 the code returned is 0. *)
Theorem findLongestPrefix_bound (n : Go.trieNode) (input : list byte) :
  fst (Go.findLongestPrefix n input) <= length input /\
  (fst (Go.findLongestPrefix n input) = 0 ->
   snd (Go.findLongestPrefix n input) = x00).
Proof.
  unfold Go.findLongestPrefix. rewrite findLongestPrefix_loop_spec.
  destruct (longest_from (trie_get n) input) as [[m v]|] eqn:E; simpl.
  - apply longest_from_Some in E. destruct E as [[Hm Hm'] _]. split; lia.
  - split; [lia | reflexivity].
Qed.

Lemma findLongestPrefix_bound_witness :
  fst (Go.findLongestPrefix Go.codeTrie (str "Q")) = 0 /\
  snd (Go.findLongestPrefix Go.codeTrie (str "Q")) = x00.
Proof.
  assert (fst (Go.findLongestPrefix Go.codeTrie (str "Q")) = 0) as H
    by (vm_compute; reflexivity).
  split; [exact H|].
  exact (proj2 (findLongestPrefix_bound Go.codeTrie (str "Q")) H).
Defined.

Lemma set_index_app {A : Type} (pre post : list A) (x y : A) :
  Go.set_index (pre ++ x :: post) (length pre) y = Ok (pre ++ y :: post).
Proof.
  induction pre as [|z pre IH]; simpl; [reflexivity|].
  rewrite IH. reflexivity.
Qed.

Lemma init_loop_fill (ss pre : list (list byte)) (t : Go.trieNode) :
  Go.init_loop (length pre) ss (pre ++ repeat [] (length ss)) t
  = Ok (pre ++ ss, build_trie (length pre) ss t).
Proof.
  revert pre t. induction ss as [|s ss IH]; intros pre t.
  - simpl. rewrite app_nil_r. reflexivity.
  - cbn [Go.init_loop length repeat build_trie].
    rewrite set_index_app. cbn [bind].
    replace (pre ++ s :: repeat [] (length ss))
      with ((pre ++ [s]) ++ repeat [] (length ss))
      by (rewrite <- app_assoc; reflexivity).
    replace (S (length pre)) with (length (pre ++ [s]))
      by (rewrite length_app; simpl; lia).
    rewrite IH. rewrite <- app_assoc. reflexivity.
Qed.

Lemma rindex_last (p : list byte) (ss : list (list byte)) (k : nat) :
  rindex p ss = Some k <->
  nth_error ss k = Some p /\ forall k', k < k' -> nth_error ss k' <> Some p.
Proof.
  revert k. induction ss as [|s ss IH]; intros k.
  - simpl. split; [discriminate|]. intros [H _]. destruct k; discriminate.
  - simpl. destruct (rindex p ss) as [j|] eqn:E.
    + split.
      * intros H. inversion H; subst. destruct (proj1 (IH j) eq_refl) as [Hj Hl].
        split; [exact Hj|]. intros [|k'] Hk; [lia|]. simpl. apply Hl. lia.
      * intros [Hk Hl]. destruct (proj1 (IH j) eq_refl) as [Hj Hlj].
        destruct k as [|k].
        { exfalso. apply (Hl (S j)); [lia | exact Hj]. }
        f_equal. f_equal. simpl in Hk.
        destruct (Nat.lt_trichotomy k j) as [H|[H|H]]; [|exact (eq_sym H)|].
        -- exfalso. apply (Hl (S j)); [lia | exact Hj].
        -- exfalso. apply (Hlj k H). exact Hk.
    + apply rindex_None in E. destruct (bytes_eqb s p) eqn:Es.
      * apply bytes_eqb_eq in Es. subst s. split.
        -- intros H. inversion H; subst. split; [reflexivity|].
           intros [|k'] Hk; [lia|]. simpl. intros Hn. apply E.
           eapply nth_error_In. exact Hn.
        -- intros [Hk _]. destruct k as [|k]; [reflexivity|].
           simpl in Hk. exfalso. apply E. eapply nth_error_In. exact Hk.
      * apply bytes_eqb_neq in Es. split; [discriminate|].
        intros [Hk _]. destruct k as [|k]; simpl in Hk.
        -- inversion Hk. contradiction.
        -- exfalso. apply E. eapply nth_error_In. exact Hk.
Qed.

(** X3. The loop of [init] on any list of strings, from a table of that
    many empty strings and any trie: it does not panic, the decode table
    it leaves is the list itself, and in the trie it leaves
    [findLongestPrefix] finds the longest string of the list that is not
    empty and starts the input, with the code of its last position in the
    list (modulo 256); it reports length 0 exactly when no such string
    starts the input. *)
Theorem init_loop_correct (ss : list (list byte)) :
  exists t,
    Go.init_loop 0 ss (repeat [] (length ss)) Go.zeroNode = Ok (ss, t) /\
    forall w,
      let '(m, code) := Go.findLongestPrefix t w in
      (m = 0 /\ forall e, In e ss -> e <> [] -> is_prefix e w = false) \/
      (0 < m /\ m <= length w /\
       (exists k, nth_error ss k = Some (firstn m w) /\
                  (forall k', k < k' -> nth_error ss k' <> Some (firstn m w)) /\
                  code = byte_of_int k) /\
       forall e, In e ss -> is_prefix e w = true -> length e <= m).
Proof.
  exists (build_trie 0 ss Go.zeroNode). split.
  - exact (init_loop_fill ss [] Go.zeroNode).
  - intros w. unfold Go.findLongestPrefix. rewrite findLongestPrefix_loop_spec.
    assert (forall p, trie_get (build_trie 0 ss Go.zeroNode) p
                      = option_map byte_of_int (rindex p ss)) as Hget.
    { intros p. rewrite trie_get_build.
      destruct (rindex p ss); [reflexivity | apply trie_get_zero]. }
    rewrite (longest_from_ext _ _ w Hget).
    destruct (longest_from (fun p => option_map byte_of_int (rindex p ss)) w)
      as [[m v]|] eqn:E.
    + right. apply longest_from_Some in E. destruct E as [[Hm Hm'] [Hf Hj]].
      split; [lia|]. split; [exact Hm'|]. split.
      * destruct (rindex (firstn m w) ss) as [k|] eqn:Ek; [|discriminate].
        exists k. apply rindex_last in Ek. destruct Ek as [Hk Hl].
        split; [exact Hk|]. split; [exact Hl|]. simpl in Hf. congruence.
      * intros e Hin Hp.
        destruct (le_lt_dec (length e) m) as [Hle|Hlt]; [exact Hle|exfalso].
        pose proof (is_prefix_length _ _ Hp) as Hlen.
        specialize (Hj (length e) Hlt Hlen).
        apply is_prefix_iff in Hp. rewrite Hp in Hj.
        apply rindex_In in Hin. destruct Hin as [k Hk]. rewrite Hk in Hj.
        discriminate.
    + left. split; [reflexivity|]. intros e Hin Hne.
      destruct (is_prefix e w) eqn:Hp; [exfalso|reflexivity].
      pose proof (is_prefix_length _ _ Hp) as Hlen.
      pose proof (longest_from_None _ _ E (length e)) as Hn.
      apply is_prefix_iff in Hp. rewrite Hp in Hn.
      apply rindex_In in Hin. destruct Hin as [k Hk]. rewrite Hk in Hn.
      destruct e; [contradiction|]. simpl in Hn, Hlen.
      specialize (Hn ltac:(lia) Hlen). discriminate.
Qed.

(** ** Flushing a buffer of any length *)

Lemma frames_fuel_enough (f f' : nat) (v : list byte) :
  length v <= f -> length v <= f' -> frames_fuel f v = frames_fuel f' v.
Proof.
  revert f' v. induction f as [|f IH]; intros f' v Hf Hf'.
  - destruct v; [|simpl in Hf; lia]. destruct f'; reflexivity.
  - destruct v as [|c v]; [destruct f'; reflexivity|].
    destruct f' as [|f']; [simpl in Hf'; lia|].
    cbn [frames_fuel]. f_equal. apply IH.
    + rewrite length_skipn. simpl in *. lia.
    + rewrite length_skipn. simpl in *. lia.
Qed.

Lemma frames_nil : frames [] = [].
Proof. reflexivity. Qed.

Lemma frames_cons (v : list byte) :
  v <> [] -> frames v = frame (firstn 255 v) ++ frames (skipn 255 v).
Proof.
  intros Hne. unfold frames. destruct v as [|c v]; [contradiction|].
  cbn [length frames_fuel]. f_equal.
  apply frames_fuel_enough; rewrite length_skipn; simpl; lia.
Qed.

Lemma frames_short (v : list byte) : length v <= 255 -> frames v = flush1 v.
Proof.
  intros H. unfold flush1. destruct v as [|c v]; [reflexivity|].
  rewrite frames_cons by discriminate.
  rewrite skipn_all2 by exact H. rewrite firstn_all2 by exact H.
  rewrite frames_nil, app_nil_r. reflexivity.
Qed.

Lemma frames_full (v rest : list byte) :
  length v = 255 -> frames (v ++ rest) = frame v ++ frames rest.
Proof.
  intros H. rewrite frames_cons by (destruct v; [discriminate H | discriminate]).
  rewrite <- H, firstn_app, skipn_app, Nat.sub_diag, firstn_all, skipn_all.
  simpl. rewrite app_nil_r. reflexivity.
Qed.

Lemma skipn_min_length {A : Type} (n : nat) (l : list A) :
  skipn (Nat.min n (length l)) l = skipn n l.
Proof.
  destruct (Nat.le_ge_cases n (length l)) as [H|H].
  - rewrite Nat.min_l by exact H. reflexivity.
  - rewrite Nat.min_r by exact H. rewrite skipn_all. symmetry.
    apply skipn_all2. exact H.
Qed.

Lemma go_flushVerbatim_loop_frames (fuel : nat) (out v : list byte) (pos : nat) :
  length v - pos <= fuel ->
  Go.flushVerbatim_loop fuel out v pos = Ok (out ++ frames (skipn pos v)).
Proof.
  revert out pos. induction fuel as [|fuel IH]; intros out pos Hf.
  - rewrite go_flushVerbatim_loop_done by lia.
    rewrite skipn_all2 by lia. rewrite frames_nil, app_nil_r. reflexivity.
  - destruct (le_lt_dec (length v) pos) as [Hge|Hlt].
    { rewrite go_flushVerbatim_loop_done by lia.
      rewrite skipn_all2 by lia. rewrite frames_nil, app_nil_r. reflexivity. }
    cbn [Go.flushVerbatim_loop]. apply Nat.ltb_lt in Hlt as Hltb. rewrite Hltb.
    set (w := skipn pos v).
    assert (length w = length v - pos) as Hw by (unfold w; apply length_skipn).
    assert ((if length v - pos <? 255 then length v - pos else 255)
            = Nat.min 255 (length w)) as -> by (rewrite Hw; nat_cases).
    rewrite subslice_ok by lia.
    replace (pos + Nat.min 255 (length w) - pos) with (Nat.min 255 (length w)) by lia.
    fold w. rewrite firstn_min_length. cbn [bind].
    rewrite IH by lia.
    rewrite Nat.add_comm, <- skipn_skipn. fold w. rewrite skipn_min_length.
    rewrite (frames_cons w) by (destruct w; [simpl in Hw; lia | discriminate]).
    unfold frame. rewrite length_firstn.
    destruct (Nat.min 255 (length w) =? 1); rewrite <- !app_assoc; reflexivity.
Qed.

Lemma php_flushVerbatim_loop_frames (fuel : nat) (v out : list byte) (pos : nat) :
  length v - pos <= fuel ->
  Php.flushVerbatim_loop fuel v out pos = Ok (out ++ frames (skipn pos v)).
Proof.
  revert out pos. induction fuel as [|fuel IH]; intros out pos Hf.
  - rewrite php_flushVerbatim_loop_done by lia.
    rewrite skipn_all2 by lia. rewrite frames_nil, app_nil_r. reflexivity.
  - destruct (le_lt_dec (length v) pos) as [Hge|Hlt].
    { rewrite php_flushVerbatim_loop_done by lia.
      rewrite skipn_all2 by lia. rewrite frames_nil, app_nil_r. reflexivity. }
    cbn [Php.flushVerbatim_loop]. unfold Php.strlen, Php.substr.
    apply Nat.ltb_lt in Hlt as Hltb. rewrite Hltb.
    set (w := skipn pos v).
    assert (length w = length v - pos) as Hw by (unfold w; apply length_skipn).
    rewrite <- Hw. rewrite firstn_min_length.
    rewrite IH by lia.
    rewrite Nat.add_comm, <- skipn_skipn. fold w. rewrite skipn_min_length.
    rewrite (frames_cons w) by (destruct w; [simpl in Hw; lia | discriminate]).
    unfold frame. rewrite length_firstn.
    destruct (Nat.min 255 (length w) =? 1); rewrite <- !app_assoc; reflexivity.
Qed.

Lemma decode_frames (v : list byte) : decode (frames v) = Ok v.
Proof.
  remember (length v) as n eqn:Hn. revert v Hn.
  induction n as [n IH] using lt_wf_ind. intros v Hn.
  destruct v as [|c v]; [reflexivity|].
  rewrite frames_cons by discriminate.
  assert (1 <= length (firstn 255 (c :: v)) <= 255) as Hl.
  { rewrite length_firstn. cbn [length]. lia. }
  rewrite (decode_app _ _ _ (decode_frame _ Hl)).
  rewrite (IH (length (skipn 255 (c :: v)))); [| |reflexivity].
  - cbn [bind]. rewrite firstn_skipn. reflexivity.
  - rewrite length_skipn. cbn [length] in *. lia.
Qed.

Lemma length_frame (v : list byte) : length (frame v) <= length v + 2.
Proof. unfold frame. destruct (length v =? 1); simpl; lia. Qed.

(** X4. [flushVerbatim] on a buffer of any length, also above 255 bytes:
    it does not panic, it only appends to [out], what it appends is what
    the PHP [flushVerbatim] returns for the same buffer, and [Decompress]
    turns what it appends back into the buffer. *)
Theorem flushVerbatim_any (out v : list byte) :
  exists f,
    Go.flushVerbatim out v = Ok (out ++ f) /\
    Php.flushVerbatim v = Ok f /\
    Go.Decompress (Some f) = Ok v.
Proof.
  exists (frames v). split; [|split].
  - unfold Go.flushVerbatim. rewrite go_flushVerbatim_loop_frames by lia.
    rewrite skipn_O. reflexivity.
  - unfold Php.flushVerbatim, Php.strlen.
    rewrite php_flushVerbatim_loop_frames by lia. rewrite skipn_O. reflexivity.
  - rewrite go_Decompress_decode. apply decode_frames.
Qed.

Lemma ref_loop_no_match (fuel : nat) (input : list byte) (i : nat)
    (out v : list byte) :
  (forall j, i <= j -> j < length input -> no_entry_prefix (skipn j input) = true) ->
  length v < 255 -> length input - i <= fuel ->
  let '(out', v') := ref_loop fuel input i out v in
  out' ++ flush1 v' = out ++ frames (v ++ skipn i input).
Proof.
  revert i out v. induction fuel as [|fuel IH]; intros i out v Hno Hv Hf.
  - rewrite ref_loop_end by lia. rewrite skipn_all2 by lia.
    rewrite app_nil_r, frames_short by lia. reflexivity.
  - destruct (le_lt_dec (length input) i) as [Hge|Hlt].
    { rewrite ref_loop_end by lia. rewrite skipn_all2 by lia.
      rewrite app_nil_r, frames_short by lia. reflexivity. }
    cbn [ref_loop]. apply Nat.ltb_lt in Hlt as Hltb. rewrite Hltb.
    destruct (skipn_cons_nth input i Hlt) as [c [Hc Hs]].
    rewrite (ref_step_no_match input i out v c (Hno i (le_n _) Hlt) Hc).
    assert (v ++ skipn i input = (v ++ [c]) ++ skipn (i + 1) input) as Heq.
    { rewrite Hs, <- app_assoc. replace (i + 1) with (S i) by lia. reflexivity. }
    destruct (Nat.eqb_spec (length (v ++ [c])) 255) as [Hl|Hl].
    + specialize (IH (i + 1) (out ++ frame (v ++ [c])) []).
      destruct (ref_loop fuel input (i + 1) (out ++ frame (v ++ [c])) [])
        as [out' v'].
      rewrite IH; [| |simpl; lia|lia].
      * rewrite Heq, (frames_full _ _ Hl), <- app_assoc. reflexivity.
      * intros j Hj1 Hj2. apply Hno; lia.
    + specialize (IH (i + 1) out (v ++ [c])).
      destruct (ref_loop fuel input (i + 1) out (v ++ [c])) as [out' v'].
      rewrite IH; [| | |lia].
      * rewrite Heq. reflexivity.
      * intros j Hj1 Hj2. apply Hno; lia.
      * rewrite length_app in *. simpl in *. lia.
Qed.

(** X5. An input, of any length, in which no entry of the codebook occurs
    at any position compresses to exactly what [flushVerbatim] makes of the
    whole input: frames of 255 bytes and a frame for the rest. *)
Theorem Compress_no_match (s : list byte) :
  no_match_anywhere s = true ->
  Go.Compress (Some s) = Go.flushVerbatim [] s.
Proof.
  intros Hno. rewrite go_Compress_encode.
  unfold Go.flushVerbatim. rewrite go_flushVerbatim_loop_frames by lia.
  rewrite skipn_O. f_equal. unfold encode.
  pose proof (ref_loop_no_match (length s) s 0 [] []) as H.
  destruct (ref_loop (length s) s 0 [] []) as [out v].
  rewrite H; [reflexivity| |simpl; lia|lia].
  intros j _ Hj. apply no_match_anywhere_at; assumption.
Qed.

Lemma Compress_no_match_witness :
  no_match_anywhere (repeat x41 600) = true /\
  Go.Compress (Some (repeat x41 600)) = Go.flushVerbatim [] (repeat x41 600).
Proof.
  assert (no_match_anywhere (repeat x41 600) = true) as H
    by (vm_compute; reflexivity).
  split; [exact H|]. exact (Compress_no_match (repeat x41 600) H).
Defined.

(** ** Sizes *)

Lemma length_flush1 (v : list byte) : length (flush1 v) <= 2 * length v.
Proof.
  unfold flush1, frame. destruct v as [|a [|b v]]; simpl; lia.
Qed.

Lemma ref_step_size (input : list byte) (i : nat) (out v : list byte) :
  i < length input -> length v < 255 ->
  length out + 2 * length v <= 2 * i ->
  let '(i', out', v') := ref_step input i out v in
  length out' + 2 * length v' <= 2 * i'.
Proof.
  intros Hi Hv Hinv. unfold ref_step.
  destruct (longest_from code_of (firstn 7 (skipn i input))) as [[m code]|] eqn:E.
  - apply longest_from_Some in E. destruct E as [[Hm _] _].
    pose proof (length_flush1 v) as Hfl.
    rewrite !length_app. simpl. lia.
  - destruct (skipn_nth_error input i Hi) as [c [_ ->]].
    destruct (Nat.eqb_spec (length (v ++ [c])) 255) as [Hl|Hl].
    + pose proof (length_frame (v ++ [c])) as Hfr.
      rewrite length_app in *. simpl in *. lia.
    + rewrite length_app. simpl. lia.
Qed.

Lemma ref_loop_size (fuel : nat) (input : list byte) (i : nat) (out v : list byte) :
  i <= length input -> length v < 255 ->
  length out + 2 * length v <= 2 * i ->
  let '(out', v') := ref_loop fuel input i out v in
  length out' + 2 * length v' <= 2 * length input.
Proof.
  revert i out v. induction fuel as [|fuel IH]; intros i out v Hi Hv Hinv;
    cbn [ref_loop].
  - destruct (i <? length input); lia.
  - destruct (Nat.ltb_spec i (length input)) as [Hlt|Hge]; [|lia].
    pose proof (ref_step_progress input i out v Hlt Hv) as Hp.
    pose proof (ref_step_size input i out v Hlt Hv Hinv) as Hs.
    destruct (ref_step input i out v) as [[i' out'] v'].
    apply IH; tauto.
Qed.

(** X6. What [Compress] returns is at most twice as long as its input. *)
Theorem Compress_size (s : list byte) :
  exists c, Go.Compress (Some s) = Ok c /\ length c <= 2 * length s.
Proof.
  exists (encode s). split; [apply go_Compress_encode|].
  unfold encode.
  pose proof (ref_loop_size (length s) s 0 [] []) as H.
  destruct (ref_loop (length s) s 0 [] []) as [out v].
  pose proof (length_flush1 v) as Hfl.
  rewrite length_app. simpl in H. specialize (H ltac:(lia) ltac:(lia) ltac:(lia)).
  lia.
Qed.

Lemma codeStrings_nth_length (k : nat) : length (nth k Go.codeStrings []) <= 7.
Proof.
  destruct (nth_in_or_default k Go.codeStrings []) as [H|H].
  - apply codeStrings_In_length in H. lia.
  - rewrite H. simpl. lia.
Qed.

Lemma next_token_size (c : byte) (r d rest : list byte) :
  next_token c r = Ok (d, rest) -> length d + 7 * length rest <= 7 * S (length r).
Proof.
  unfold next_token.
  destruct (Byte.eqb c Go.verbatimByte).
  { destruct r as [|b r']; [discriminate|]. intros H. inversion H; subst.
    simpl. lia. }
  destruct (Byte.eqb c Go.verbatimString).
  { destruct r as [|l r']; [discriminate|].
    destruct (Nat.ltb_spec (length r') (Byte.to_nat l)) as [Hl|Hl]; [discriminate|].
    intros H. inversion H; subst. rewrite length_firstn, length_skipn.
    cbn [length]. lia. }
  pose proof (codeStrings_nth_length (Byte.to_nat c)) as Hn.
  remember (nth (Byte.to_nat c) Go.codeStrings []) as e eqn:He. clear He.
  intros [= <- <-]. lia.
Qed.

(** X7. What [Decompress] returns is at most seven times as long as its
    input: a code stands for at most 7 bytes, and an escape stands for
    fewer bytes than it takes. *)
Theorem Decompress_size (s x : list byte) :
  Go.Decompress (Some s) = Ok x -> length x <= 7 * length s.
Proof.
  rewrite go_Decompress_decode.
  remember (length s) as n eqn:Hn. revert s x Hn.
  induction n as [n IH] using lt_wf_ind. intros s x Hn Hd.
  destruct s as [|c r].
  - inversion Hd. simpl. lia.
  - rewrite decode_cons in Hd.
    destruct (next_token c r) as [[d rest]| | |] eqn:E; try discriminate.
    cbn [bind] in Hd. pose proof (next_token_size _ _ _ _ E) as Hsz.
    apply next_token_length in E.
    destruct (decode rest) as [y| | |] eqn:Er; try discriminate.
    cbn [bind] in Hd. inversion Hd; subst x.
    assert (length y <= 7 * length rest) as Hy.
    { apply (IH (length rest)) with (s := rest);
        [cbn [length] in Hn; lia | reflexivity | exact Er]. }
    rewrite length_app. cbn [length] in Hn. lia.
Qed.

Lemma Decompress_size_witness :
  Go.Decompress (Some [x43; x43]) = Ok (str "http://http://") /\
  length (str "http://http://") <= 7 * length [x43; x43].
Proof.
  assert (Go.Decompress (Some [x43; x43]) = Ok (str "http://http://")) as H
    by (vm_compute; reflexivity).
  split; [exact H|]. exact (Decompress_size [x43; x43] (str "http://http://") H).
Defined.

(** X8. An entry of the codebook, alone, compresses to the single byte of
    its position, and that byte alone decompresses to the entry. *)
Theorem Compress_entry (k : nat) (e : list byte) :
  nth_error Go.codeStrings k = Some e ->
  Go.Compress (Some e) = Ok [byte_of_int k] /\
  Go.Decompress (Some [byte_of_int k]) = Ok e.
Proof.
  intros Hk.
  assert (entry_at k e e) as Hent.
  { split; [exact Hk|]. apply is_prefix_app. exists []. symmetry. apply app_nil_r. }
  destruct (longest_exists e k e Hent) as [m [code E]].
  destruct (longest_entry e m code E) as [[Hnth _] [Hm Hmax]].
  pose proof (Hmax k e Hent) as Hle.
  pose proof (longest_from_Some _ _ _ _ E) as [[_ Hm'] [Hc _]].
  rewrite length_firstn in Hm'.
  assert (m = length e) as -> by lia.
  rewrite firstn_all in Hnth.
  pose proof (codeStrings_index_unique _ _ _ Hnth Hk) as Hkk.
  rewrite <- Hkk, byte_of_int_of_to_nat.
  rewrite firstn_window, firstn_all in Hc
    by (pose proof (codeStrings_In_length e (nth_error_In _ _ Hk)); lia).
  split.
  - rewrite go_Compress_encode. f_equal. unfold encode.
    pose proof (codeStrings_In_length e (nth_error_In _ _ Hk)) as Hlen.
    destruct (length e) as [|n] eqn:Hn; [lia|].
    cbn [ref_loop]. rewrite Hn. cbn [Nat.ltb Nat.leb].
    unfold ref_step. rewrite skipn_O, E.
    rewrite ref_loop_end by lia. reflexivity.
  - rewrite go_Decompress_decode. apply decode_code. exact Hc.
Qed.

Lemma Compress_entry_witness :
  nth_error Go.codeStrings 67 = Some (str "http://") /\
  Go.Compress (Some (str "http://")) = Ok [x43] /\
  Go.Decompress (Some [x43]) = Ok (str "http://").
Proof.
  assert (nth_error Go.codeStrings 67 = Some (str "http://")) as H by reflexivity.
  split; [exact H|]. exact (Compress_entry 67 (str "http://") H).
Defined.

(** ** The decoder on any table *)

Lemma Decompress_step_cases (dm : list (list byte)) (input : list byte) (i : nat)
    (out : list byte) :
  i < length input ->
  (exists i' out', Go.Decompress_step dm input i out = Ok (i', out') /\
                   i < i' /\ i' <= length input) \/
  (exists e, Go.Decompress_step dm input i out = Err e /\
             (e = err_byte \/ e = err_length \/ e = err_data \/ e = err_code)).
Proof.
  intros Hi. destruct (skipn_cons_nth input i Hi) as [c [Hc _]].
  unfold Go.Decompress_step. rewrite (index_ok _ _ _ Hc). cbn [bind].
  destruct (Byte.eqb c Go.verbatimByte).
  { destruct (Nat.leb_spec (length input) (i + 1)) as [Hl|Hl].
    - right. eexists. split; [reflexivity|]. auto.
    - destruct (skipn_cons_nth input (i + 1)) as [b [Hb _]]; [lia|].
      rewrite (index_ok _ _ _ Hb). cbn [bind].
      left. do 2 eexists. split; [reflexivity|]. lia. }
  destruct (Byte.eqb c Go.verbatimString).
  { destruct (Nat.leb_spec (length input) (i + 1)) as [Hl|Hl].
    - right. eexists. split; [reflexivity|]. auto.
    - destruct (skipn_cons_nth input (i + 1)) as [l [Hb _]]; [lia|].
      rewrite (index_ok _ _ _ Hb). cbn [bind].
      destruct (Nat.ltb_spec (length input) (i + 2 + Byte.to_nat l)) as [Hd|Hd].
      + right. eexists. split; [reflexivity|]. auto.
      + rewrite subslice_ok by lia. cbn [bind].
        left. do 2 eexists. split; [reflexivity|]. lia. }
  destruct (Nat.leb_spec (length dm) (Byte.to_nat c)) as [Hl|Hl].
  - right. eexists. split; [reflexivity|]. auto.
  - rewrite (index_ok _ _ (nth (Byte.to_nat c) dm [])) by (apply nth_error_nth'; exact Hl).
    cbn [bind]. left. do 2 eexists. split; [reflexivity|]. lia.
Qed.

Lemma Decompress_loop_cases (dm : list (list byte)) (fuel : nat)
    (input : list byte) (i : nat) (out : list byte) :
  length input - i <= fuel ->
  (exists x, Go.Decompress_loop dm fuel input i out = Ok x) \/
  (exists e, Go.Decompress_loop dm fuel input i out = Err e /\
             (e = err_byte \/ e = err_length \/ e = err_data \/ e = err_code)).
Proof.
  revert i out. induction fuel as [|fuel IH]; intros i out Hf;
    cbn [Go.Decompress_loop].
  - destruct (Nat.ltb_spec i (length input)) as [Hlt|Hge]; [lia|]. left. eauto.
  - destruct (Nat.ltb_spec i (length input)) as [Hlt|Hge]; [|left; eauto].
    destruct (Decompress_step_cases dm input i out Hlt)
      as [[i' [out' [-> Hi']]]|[e [-> He]]]; cbn [bind].
    + apply IH. lia.
    + right. eauto.
Qed.

(** X9. On any decode table and any input, [Decompress] neither indexes
    out of range nor loops: it returns a result, or one of its five
    errors. *)
Theorem DecompressWith_safe (table : list (list byte)) (input : option (list byte)) :
  (exists x, Go.DecompressWith table input = Ok x) \/
  (exists e, Go.DecompressWith table input = Err e /\
     (e = Go.mkSmazError "input cannot be nil" \/
      e = Go.mkSmazError "incomplete verbatim byte sequence" \/
      e = Go.mkSmazError "incomplete verbatim string length" \/
      e = Go.mkSmazError "incomplete verbatim string data" \/
      e = Go.mkSmazError "invalid code")).
Proof.
  destruct input as [s|]; cbn [Go.DecompressWith].
  - destruct (Decompress_loop_cases table (length s) s 0 []) as [H|[e [He Hc]]];
      [lia | left; exact H|].
    right. exists e. split; [exact He|]. tauto.
  - right. eexists. split; [reflexivity|]. auto.
Qed.

(** ** The callers of the codec *)

(** X10. [MustCompress] panics on a [nil] input only; what it returns,
    [MustDecompress] turns back into the input without a panic.
    [MustDecompress] panics with an error exactly on a truncated stream
    and on a [nil] input. *)
Theorem Must_round_trip :
  (forall s, exists c, Go.MustCompress (Some s) = Go.Returned c /\
                       Go.MustDecompress (Some c) = Go.Returned s) /\
  Go.MustCompress None = Go.PanicErr (Go.mkSmazError "input cannot be nil") /\
  Go.MustDecompress None = Go.PanicErr (Go.mkSmazError "input cannot be nil") /\
  (forall s e, Go.MustDecompress (Some s) = Go.PanicErr e <-> Truncated e s).
Proof.
  split; [|split; [reflexivity|split; [reflexivity|]]].
  - intros s. exists (encode s). unfold Go.MustCompress, Go.MustDecompress.
    rewrite go_Compress_encode, go_Decompress_decode, decode_encode.
    split; reflexivity.
  - intros s e. unfold Go.MustDecompress. rewrite go_Decompress_decode.
    rewrite <- decode_Err_Truncated.
    destruct (decode s); split; intros H; try discriminate; congruence.
Qed.

(** X11. [CompressString] succeeds on every string, the empty one
    included, and [DecompressString] turns its result back into the
    string; on a [nil] slice [DecompressString] returns the error. *)
Theorem String_round_trip :
  (forall s, exists c, Go.CompressString s = Ok c /\
                       Go.DecompressString (Some c) = Ok s) /\
  Go.DecompressString None = Err (Go.mkSmazError "input cannot be nil").
Proof.
  split; [|reflexivity].
  intros s. exists (encode s). unfold Go.CompressString, Go.DecompressString.
  rewrite go_Compress_encode, go_Decompress_decode, decode_encode.
  split; reflexivity.
Qed.

(** X12. The PHP round trip: [smaz_compress] returns on every string
    without an exception, and [smaz_decompress] turns what it returns back
    into the string. *)
Theorem php_round_trip (s : list byte) :
  exists c, Php.smaz_compress s = Ok c /\ Php.smaz_decompress c = Ok s.
Proof.
  exists (encode s). unfold Php.smaz_compress, Php.smaz_decompress.
  split; [apply php_compress_encode|].
  pose proof (php_decompress_decode (encode s)) as H.
  rewrite decode_encode in H.
  destruct (Php.decompress (encode s)); simpl in H; try contradiction.
  congruence.
Qed.

(** X13. [array_flip] of any list maps a string to the last position at
    which it occurs in the list, and to nothing when it does not occur;
    on the codebook, whose entries are pairwise different, the encode map
    sends each entry to its position and holds no other key. *)
Theorem array_flip_lookup (vals : list (list byte)) (p : list byte) (k : nat) :
  (Php.array_get (Php.array_flip vals) p = Some k <->
   nth_error vals k = Some p /\
   forall k', k < k' -> nth_error vals k' <> Some p) /\
  (Php.isset (Php.array_flip vals) p = true <-> In p vals) /\
  (Php.array_get Php.getEncodeMap p = Some k <->
   nth_error Php.decodeMap k = Some p).
Proof.
  assert (forall q, Php.array_get (Php.array_flip vals) q = rindex q vals) as Hget.
  { intros q. unfold Php.array_flip. rewrite array_get_flip_loop.
    destruct (rindex q vals); reflexivity. }
  split; [|split].
  - rewrite Hget. apply rindex_last.
  - unfold Php.isset. rewrite Hget. destruct (rindex p vals) as [j|] eqn:E.
    + split; [|reflexivity]. intros _. apply rindex_Some in E.
      eapply nth_error_In. exact E.
    + split; [discriminate|]. intros Hin. apply rindex_None in E. contradiction.
  - rewrite encodeMap_get, php_decodeMap_eq. split.
    + apply rindex_Some.
    + intros Hk. destruct (rindex_In p Go.codeStrings) as [j Hj].
      { eapply nth_error_In. exact Hk. }
      rewrite Hj. f_equal.
      apply (codeStrings_index_unique _ _ p (rindex_Some _ _ _ Hj) Hk).
Qed.

Lemma array_flip_lookup_witness :
  (nth_error [str "a"; str "b"; str "a"] 2 = Some (str "a") /\
   forall k', 2 < k' -> nth_error [str "a"; str "b"; str "a"] k' <> Some (str "a")) /\
  Php.array_get (Php.array_flip [str "a"; str "b"; str "a"]) (str "a") = Some 2.
Proof.
  assert (nth_error [str "a"; str "b"; str "a"] 2 = Some (str "a") /\
          forall k', 2 < k' ->
                     nth_error [str "a"; str "b"; str "a"] k' <> Some (str "a")) as H.
  { split; [reflexivity|]. intros [|[|[|[|k']]]] Hk; try lia; discriminate. }
  split; [exact H|].
  apply (proj1 (array_flip_lookup [str "a"; str "b"; str "a"] (str "a") 2)).
  exact H.
Defined.

(** ** The errors of the two decoders *)

Lemma php_decompress_loop_errors (fuel : nat) (input : list byte) (i : nat)
    (out : list byte) :
  i <= length input ->
  agree_errors (x <- decode_fuel fuel (skipn i input) ;; Ok (out ++ x))
        (Php.decompress_loop fuel input i out).
Proof.
  revert i out. induction fuel as [|fuel IH]; intros i out Hi.
  - cbn [Php.decompress_loop]. unfold Php.strlen.
    destruct (Nat.ltb_spec i (length input)) as [Hlt|Hge].
    + destruct (skipn_cons_nth input i Hlt) as [c [_ ->]]. exact I.
    + rewrite skipn_all2 by lia. simpl. apply app_nil_r.
  - cbn [Php.decompress_loop]. unfold Php.strlen.
    destruct (Nat.ltb_spec i (length input)) as [Hlt|Hge].
    2:{ rewrite skipn_all2 by lia. simpl. apply app_nil_r. }
    destruct (skipn_cons_nth input i Hlt) as [c [Hc Hs]].
    unfold Php.decompress_step, Php.offset, Php.substr, Php.strlen.
    rewrite Hs. cbn [firstn Php.ord decode_fuel]. unfold next_token.
    unfold Php.VERBATIM_BYTE, Php.VERBATIM_STRING.
    rewrite !byte_eqb_to_nat.
    change (Byte.to_nat Go.verbatimByte) with 254.
    change (Byte.to_nat Go.verbatimString) with 255.
    destruct (Nat.eqb_spec (Byte.to_nat c) 254) as [E1|E1].
    { destruct (Nat.leb_spec (length input) (i + 1)) as [Hl|Hl].
      - rewrite skipn_all2 by lia. left. split; reflexivity.
      - destruct (skipn_cons_nth input (S i)) as [b [Hb Hs']]; [lia|].
        replace (i + 1) with (S i) by lia. rewrite Hs'.
        cbn [bind firstn]. replace (i + 2) with (S (S i)) by lia.
        specialize (IH (S (S i)) (out ++ [b]) ltac:(lia)).
        destruct (decode_fuel fuel (skipn (S (S i)) input)); cbn [bind] in *;
          try exact IH.
        rewrite <- app_assoc in IH. exact IH. }
    destruct (Nat.eqb_spec (Byte.to_nat c) 255) as [E2|E2].
    { destruct (Nat.leb_spec (length input) (i + 1)) as [Hl|Hl].
      - rewrite skipn_all2 by lia. right. left. split; reflexivity.
      - destruct (skipn_cons_nth input (S i)) as [l [Hb Hs']]; [lia|].
        replace (i + 1) with (S i) by lia. rewrite Hs'.
        cbn [bind firstn Php.ord]. rewrite length_skipn.
        destruct (Nat.ltb_spec (length input) (i + 2 + Byte.to_nat l)) as [Hd|Hd].
        + assert ((length input - S (S i) <? Byte.to_nat l) = true) as ->
            by (apply Nat.ltb_lt; lia).
          right. right. split; reflexivity.
        + assert ((length input - S (S i) <? Byte.to_nat l) = false) as ->
            by (apply Nat.ltb_ge; lia).
          cbn [bind]. replace (i + 2) with (S (S i)) by lia.
          rewrite skipn_skipn.
          replace (Byte.to_nat l + S (S i)) with (S (S i) + Byte.to_nat l) by lia.
          specialize (IH (S (S i) + Byte.to_nat l)
                        (out ++ firstn (Byte.to_nat l) (skipn (S (S i)) input))
                        ltac:(lia)).
          destruct (decode_fuel fuel (skipn (S (S i) + Byte.to_nat l) input));
            cbn [bind] in *; try exact IH.
          rewrite <- app_assoc in IH. exact IH. }
    pose proof (Byte.to_nat_bounded c) as Hb.
    rewrite php_decodeMap_eq, codeStrings_length.
    assert ((254 <=? Byte.to_nat c) = false) as -> by (apply Nat.leb_gt; lia).
    cbn [bind]. replace (i + 1) with (S i) by lia.
    specialize (IH (S i) (out ++ nth (Byte.to_nat c) Go.codeStrings []) ltac:(lia)).
    destruct (decode_fuel fuel (skipn (S i) input)); cbn [bind] in *; try exact IH.
    rewrite <- app_assoc in IH. exact IH.
Qed.

(** X14. The two decoders fail alike: on every input both succeed with
    the same bytes, or the Go decoder returns a truncation error and the
    PHP decoder throws the [RuntimeException] with the same message
    (capitalised); the PHP decoder throws its invalid-code exception on no
    input. *)
Theorem decoders_same_error (s : list byte) :
  match Go.Decompress (Some s), Php.decompress s with
  | Ok x, Ok x' => x = x'
  | Err e, Err e' => same_error e e'
  | _, _ => False
  end.
Proof.
  rewrite go_Decompress_decode.
  pose proof (php_decompress_loop_errors (length s) s 0 [] ltac:(lia)) as H.
  unfold Php.decompress, Php.strlen. unfold decode in *. simpl in H.
  pose proof (decode_total s) as Ht. unfold decode in Ht.
  destruct (decode_fuel (length s) s) as [x|e| |]; cbn [bind] in H.
  - exact H.
  - exact H.
  - destruct Ht as [[x Hx]|[e He]]; discriminate.
  - destruct Ht as [[x Hx]|[e He]]; discriminate.
Qed.

(** ** Streams of codes, and the two implementations together *)

(** X15. A stream of codes only (bytes below 254) decompresses to the
    entries of the codebook at those positions, one after the other. *)
Theorem Decompress_codes (cs : list byte) :
  forallb (fun c => Byte.to_nat c <? 254) cs = true ->
  Go.Decompress (Some cs)
  = Ok (concat (map (fun c => nth (Byte.to_nat c) Go.codeStrings []) cs)).
Proof.
  rewrite go_Decompress_decode. induction cs as [|c cs IH]; intros H.
  - reflexivity.
  - cbn [forallb] in H. apply andb_true_iff in H. destruct H as [Hc Hcs].
    apply Nat.ltb_lt in Hc. destruct (lt_non_escape c Hc) as [E1 E2].
    rewrite decode_cons. unfold next_token. rewrite E1, E2. cbn [bind].
    rewrite (IH Hcs). reflexivity.
Qed.

Lemma Decompress_codes_witness :
  forallb (fun c => Byte.to_nat c <? 254) [x01; x00; x43] = true /\
  Go.Decompress (Some [x01; x00; x43]) = Ok (str "the http://").
Proof.
  assert (forallb (fun c => Byte.to_nat c <? 254) [x01; x00; x43] = true) as H
    by reflexivity.
  split; [exact H|]. exact (Decompress_codes [x01; x00; x43] H).
Defined.

(** X16. [Compress] loses nothing: two inputs with the same compressed
    bytes are the same input. *)
Theorem Compress_injective (s1 s2 : list byte) :
  Go.Compress (Some s1) = Go.Compress (Some s2) -> s1 = s2.
Proof.
  rewrite !go_Compress_encode. intros [= H].
  pose proof (decode_encode s1) as H1. rewrite H, decode_encode in H1.
  congruence.
Qed.

Lemma Compress_injective_witness :
  Go.Compress (Some (str "the")) = Go.Compress (Some (str "the")) /\
  str "the" = str "the".
Proof.
  assert (Go.Compress (Some (str "the")) = Go.Compress (Some (str "the"))) as H
    by reflexivity.
  split; [exact H|]. exact (Compress_injective (str "the") (str "the") H).
Defined.

(** X17. The two implementations read each other's output: what the Go
    [Compress] returns, the PHP [decompress] turns back into the input,
    and what the PHP [compress] returns, the Go [Decompress] does. *)
Theorem cross_round_trip (s : list byte) :
  (exists c, Go.Compress (Some s) = Ok c /\ Php.decompress c = Ok s) /\
  (exists c, Php.compress s = Ok c /\ Go.Decompress (Some c) = Ok s).
Proof.
  split; exists (encode s).
  - split; [apply go_Compress_encode|].
    pose proof (php_decompress_decode (encode s)) as H.
    rewrite decode_encode in H.
    destruct (Php.decompress (encode s)); simpl in H; try contradiction.
    congruence.
  - split; [apply php_compress_encode|].
    rewrite go_Decompress_decode. apply decode_encode.
Qed.

(** * The loop of [Compress], turn by turn *)


(** A turn at a cursor where no entry matches. *)
Lemma go_Compress_step_no_match (input : list byte) (i : nat) (out v : list byte)
    (c : byte) :
  nth_error input i = Some c -> no_entry_prefix (skipn i input) = true ->
  length v < 255 ->
  Go.Compress_step input i out v
  = if length (v ++ [c]) =? 255
    then Ok (i + 1, out ++ frame (v ++ [c]), [])
    else Ok (i + 1, out, v ++ [c]).
Proof.
  intros Hc Hno Hv.
  assert (i < length input) as Hi by (apply nth_error_Some; congruence).
  rewrite go_Compress_step_ref by assumption.
  rewrite (ref_step_no_match input i out v c Hno Hc).
  destruct (length (v ++ [c]) =? 255); reflexivity.
Qed.




(** C4. The boundary at 255: 255 bytes with no match at any position
    compress to the single frame [255, 255, b1..b255]; 256 such bytes
    compress to that frame for the first 255, followed by [254, b256].
    The buffer is flushed in the very turn of the loop that brings it to
    255 bytes: at a cursor with no match, a buffer of 254 bytes leaves the
    turn empty, with the frame of its 255 bytes appended to the output,
    while a shorter buffer only takes the byte and the output stays as it
    is. *)
Theorem C4_boundary_255 (s : list byte) (b : byte) :
  length s = 255 ->
  (no_match_anywhere s = true ->
   Go.Compress (Some s) = Ok (xff :: xff :: s)) /\
  (no_match_anywhere (s ++ [b]) = true ->
   Go.Compress (Some (s ++ [b])) = Ok (xff :: xff :: s ++ [xfe; b])) /\
  (forall input i out v c,
      nth_error input i = Some c -> no_entry_prefix (skipn i input) = true ->
      v ++ [c] = s ->
      Go.Compress_step input i out v = Ok (i + 1, out ++ xff :: xff :: s, [])) /\
  (forall input i out v c,
      nth_error input i = Some c -> no_entry_prefix (skipn i input) = true ->
      length (v ++ [c]) < 255 ->
      Go.Compress_step input i out v = Ok (i + 1, out, v ++ [c])).
Proof.
  intros Hl. split; [|split; [|split]].
  - intros Hno. rewrite go_Compress_encode. f_equal. unfold encode.
    rewrite Hl. change 255 with (255 + 0) at 1.
    rewrite ref_loop_255.
    + rewrite ref_loop_end by lia.
      rewrite <- Hl, firstn_all. cbn [app flush1 length Nat.ltb Nat.leb].
      rewrite app_nil_r. unfold frame. rewrite Hl. reflexivity.
    + lia.
    + intros j Hj. apply no_match_anywhere_at; [exact Hno | lia].
  - intros Hno. rewrite go_Compress_encode. f_equal. unfold encode.
    assert (length (s ++ [b]) = 256) as Hl' by (rewrite length_app, Hl; reflexivity).
    rewrite Hl'. change 256 with (255 + 1) at 1.
    rewrite ref_loop_255.
    + assert (firstn 255 (s ++ [b]) = s) as ->.
      { rewrite <- Hl, firstn_app, Nat.sub_diag, firstn_all. simpl. apply app_nil_r. }
      change 1 with (1 + 0) at 1.
      pose proof (ref_loop_run 1 0 (s ++ [b]) 255 ([] ++ frame s) []) as Hrun.
      rewrite Hrun; clear Hrun.
      * rewrite ref_loop_end by lia.
        assert (skipn 255 (s ++ [b]) = [b]) as ->.
        { rewrite <- Hl, skipn_app, Nat.sub_diag, skipn_all. reflexivity. }
        unfold frame. rewrite Hl. reflexivity.
      * intros j Hj. apply no_match_anywhere_at; [exact Hno | lia].
      * lia.
      * simpl. lia.
    + lia.
    + intros j Hj. apply no_match_anywhere_at; [exact Hno | lia].
  - intros input i out v c Hc Hno Hs.
    assert (length (v ++ [c]) = 255) as Hlen by (rewrite Hs; exact Hl).
    rewrite (go_Compress_step_no_match input i out v c Hc Hno)
      by (rewrite length_app in Hlen; simpl in Hlen; lia).
    rewrite Hlen, Hs. cbn [Nat.eqb]. unfold frame. rewrite Hl. reflexivity.
  - intros input i out v c Hc Hno Hlen.
    rewrite (go_Compress_step_no_match input i out v c Hc Hno)
      by (rewrite length_app in Hlen; simpl in Hlen; lia).
    destruct (Nat.eqb_spec (length (v ++ [c])) 255) as [He|He]; [lia|reflexivity].
Qed.

Lemma C4_boundary_255_witness :
  length (repeat x00 255) = 255 /\
  (no_match_anywhere (repeat x00 255) = true /\
   Go.Compress (Some (repeat x00 255)) = Ok (xff :: xff :: repeat x00 255)) /\
  (no_match_anywhere (repeat x00 255 ++ [xff]) = true /\
   Go.Compress (Some (repeat x00 255 ++ [xff]))
   = Ok (xff :: xff :: repeat x00 255 ++ [xfe; xff])) /\
  (nth_error (repeat x00 255 ++ [xff]) 254 = Some x00 /\
   no_entry_prefix (skipn 254 (repeat x00 255 ++ [xff])) = true /\
   repeat x00 254 ++ [x00] = repeat x00 255 /\
   Go.Compress_step (repeat x00 255 ++ [xff]) 254 [] (repeat x00 254)
   = Ok (254 + 1, [] ++ xff :: xff :: repeat x00 255, [])) /\
  (nth_error (repeat x00 255 ++ [xff]) 255 = Some xff /\
   no_entry_prefix (skipn 255 (repeat x00 255 ++ [xff])) = true /\
   length ([] ++ [xff]) < 255 /\
   Go.Compress_step (repeat x00 255 ++ [xff]) 255 (xff :: xff :: repeat x00 255) []
   = Ok (255 + 1, xff :: xff :: repeat x00 255, [] ++ [xff])).
Proof.
  pose proof (C4_boundary_255 (repeat x00 255) xff eq_refl) as [H1 [H2 [H3 H4]]].
  split; [reflexivity|].
  split; [split; [vm_compute; reflexivity | apply H1; vm_compute; reflexivity]|].
  split; [split; [vm_compute; reflexivity | apply H2; vm_compute; reflexivity]|].
  split.
  - assert (nth_error (repeat x00 255 ++ [xff]) 254 = Some x00) as Ha
      by (vm_compute; reflexivity).
    assert (no_entry_prefix (skipn 254 (repeat x00 255 ++ [xff])) = true) as Hb
      by (vm_compute; reflexivity).
    assert (repeat x00 254 ++ [x00] = repeat x00 255) as Hc
      by (vm_compute; reflexivity).
    split; [exact Ha|]. split; [exact Hb|]. split; [exact Hc|].
    exact (H3 _ 254 [] _ _ Ha Hb Hc).
  - assert (nth_error (repeat x00 255 ++ [xff]) 255 = Some xff) as Ha
      by (vm_compute; reflexivity).
    assert (no_entry_prefix (skipn 255 (repeat x00 255 ++ [xff])) = true) as Hb
      by (vm_compute; reflexivity).
    assert (length ([] ++ [xff]) < 255) as Hc by (simpl; lia).
    split; [exact Ha|]. split; [exact Hb|]. split; [exact Hc|].
    exact (H4 _ 255 (xff :: xff :: repeat x00 255) [] _ Ha Hb Hc).
Defined.
